(** * Soil moisture sketches: a shallow embedding and its properties

    The repository holds three Arduino sketches for resistive soil-moisture
    probes: a minimal two-sensor logger, a single-sensor sketch with a
    percentage mapping, and the enhanced two-sensor sketch with a median
    filter, a running total, a sticky error flag and sensor power control.
    The single-sensor sketch and the enhanced sketch are embedded here.

    The sketches target the Arduino Uno (ATmega328P): [int] is 16 bits,
    [long] and [unsigned long] are 32 bits.  Hardware inputs ([analogRead],
    [millis]) are taken from an environment; hardware outputs
    ([digitalWrite], [delay], [Serial.print]) are recorded as events. *)

From Stdlib Require Import ZArith Zquot List Bool Lia String Sorting.Sorted Permutation.
From stdpp Require Import base list.
Import ListNotations.
Local Open Scope Z_scope.

(** ** Machine integers of the target *)

Module Mach.

(** [int]: 16-bit two's complement. *)
Definition int_wrap (z : Z) : Z := (z + 32768) mod 65536 - 32768.

(** [long]: 32-bit two's complement. *)
Definition long_wrap (z : Z) : Z := (z + 2147483648) mod 4294967296 - 2147483648.

(** [unsigned long]: arithmetic modulo 2^32. *)
Definition ulong_wrap (z : Z) : Z := z mod 4294967296.

Definition int_add (a b : Z) : Z := int_wrap (a + b).
Definition int_sub (a b : Z) : Z := int_wrap (a - b).
(** C division truncates toward zero. *)
Definition int_div (a b : Z) : Z := int_wrap (Z.quot a b).

Definition ulong_sub (a b : Z) : Z := ulong_wrap (a - b).

Definition is_int (z : Z) : Prop := -32768 <= z <= 32767.

End Mach.

(** ** Arduino core helpers used by the sketches *)

Module Core.
Import Mach.

(** Modelled from the spec: the pin constants [A0] and [A1] come from the
    Arduino core, not from the repository.  The diagnostics of section 6 name
    the sensors [A0] and [A1] by printing [sensorPin - A0], so the two are
    consecutive; the Uno numbers them 14 and 15. *)
Definition A0 : Z := 14.
Definition A1 : Z := 15.

(** Modelled from the spec: [map] is a function of the Arduino core, not of
    the repository.  Section 4.5 gives the interpolation as
    [(average - dryValue) * 100 / (wetValue - dryValue)] with integer
    truncation, which is the core's
    [(x - in_min) * (out_max - out_min) / (in_max - in_min) + out_min]
    for the output range 0..100; the core computes it in [long]. *)
Definition map (x in_min in_max out_min out_max : Z) : Z :=
  long_wrap
    (long_wrap
       (Z.quot (long_wrap (long_wrap (x - in_min) * long_wrap (out_max - out_min)))
               (long_wrap (in_max - in_min)))
     + out_min).

(** Modelled from the spec: [constrain] is a macro of the Arduino core, not
    of the repository.  Section 4.5 has the percentage clamped to [0,100];
    the core's macro is
    [((amt)<(low)?(low):((amt)>(high)?(high):(amt)))]. *)
Definition constrain (amt low high : Z) : Z :=
  if amt <? low then low else if amt >? high then high else amt.

(** The two statements both sketches use to turn a reading into a
    percentage: [p = map(v, air, water, 0, 100); p = constrain(p, 0, 100);]
    where [p] is an [int], so the [long] returned by [map] is narrowed. *)
Definition to_percentage (v airValue waterValue : Z) : Z :=
  let p := int_wrap (map v airValue waterValue 0 100) in
  constrain p 0 100.

End Core.

(** ** The median filter of [readSensor] *)

Module Filter.

(** Body of the inner loop: compare neighbours [j], [j+1] and swap them
    through [temp] when they are out of order. *)
Definition swap_step (a : list Z) (j : nat) : list Z :=
  if nth j a 0 >? nth (j + 1) a 0 then
    let temp := nth j a 0 in
    let a1 := <[j := nth (j + 1) a 0]> a in
    <[(j + 1)%nat := temp]> a1
  else a.

(** One pass seen on the list itself: the larger of each compared pair is
    carried along, so the maximum ends in the last position. *)
Fixpoint bubble_up (x : Z) (l : list Z) : list Z :=
  match l with
  | [] => [x]
  | y :: l' => if x >? y then y :: bubble_up x l' else x :: bubble_up y l'
  end.

(** [for (int j = 0; j < numReadings - i - 1; j++)]. *)
Definition inner_loop (n i : nat) (a : list Z) : list Z :=
  fold_left swap_step (seq 0 (n - i - 1)) a.

(** [for (int i = 0; i < numReadings - 1; i++)]. *)
Definition bubble_sort (n : nat) (a : list Z) : list Z :=
  fold_left (fun a i => inner_loop n i a) (seq 0 (n - 1)) a.

(** After [i] passes the last [i] slots hold, in ascending order, values
    that nothing in front of them exceeds. *)
Definition settled (i : nat) (a : list Z) : Prop :=
  exists p s, a = p ++ s /\ length s = i /\ StronglySorted Z.le s /\
              Forall (fun x => Forall (fun y => x <= y) s) p.

(** [tempReadings[numReadings / 2]] after sorting. *)
Definition median (n : nat) (a : list Z) : Z :=
  nth (n / 2) (bubble_sort n a) 0.

(** Counting inputs strictly below and strictly above a value. *)
Definition count_lt (v : Z) (l : list Z) : nat :=
  length (List.filter (fun x => x <? v) l).
Definition count_gt (v : Z) (l : list Z) : nat :=
  length (List.filter (fun x => v <? x) l).

End Filter.

(** ** Hardware interface: inputs from an environment, outputs as events *)

Module Hw.
Import Mach.

(** What [Serial.print] was given. *)
Inductive token : Type :=
| TStr (s : string)
| TInt (v : Z)
| TULong (v : Z).

Inductive event : Type :=
| SerialBegin (baud : Z)
| PinModeOutput (pin : Z)
| DigitalWrite (pin : Z) (high : bool)
| Delay (ms : Z)
| AnalogRead (pin : Z) (v : Z)
| Print (t : token)
| Println (t : token).

(** The physical world: [adc pin k] is the converter code on [pin] at the
    [k]-th conversion, [clock k] the milliseconds elapsed since reset at
    the [k]-th call of [millis]. *)
Record env : Type := { adc : Z -> nat -> Z; clock : nat -> Z }.

(** How many conversions and clock reads have happened so far. *)
Record hw : Type := { reads : nat; ticks : nat }.

Definition M (A : Type) : Type := env -> hw -> A * hw * list event.

Definition ret {A} (a : A) : M A := fun _ h => (a, h, []).

Definition bind {A B} (m : M A) (k : A -> M B) : M B :=
  fun e h =>
    let '(a, h1, out1) := m e h in
    let '(b, h2, out2) := k a e h1 in
    (b, h2, out1 ++ out2).

Definition emit (ev : event) : M unit := fun _ h => (tt, h, [ev]).

Definition analogRead (pin : Z) : M Z :=
  fun e h =>
    let v := adc e pin (reads h) in
    (v, {| reads := S (reads h); ticks := ticks h |}, [AnalogRead pin v]).

(** [millis()] is an [unsigned long]: the elapsed time modulo 2^32. *)
Definition millis : M Z :=
  fun e h =>
    (ulong_wrap (clock e (ticks h)),
     {| reads := reads h; ticks := S (ticks h) |}, []).

Definition digitalWrite (pin : Z) (high : bool) : M unit := emit (DigitalWrite pin high).
Definition delay (ms : Z) : M unit := emit (Delay ms).
Definition print (t : token) : M unit := emit (Print t).
Definition println (t : token) : M unit := emit (Println t).

Definition when (b : bool) (m : M unit) : M unit := if b then m else ret tt.

(** [for] loop over the given indices, threading the loop-carried value. *)
Fixpoint for_each {A} (idx : list nat) (body : nat -> A -> M A) (a : A) : M A :=
  match idx with
  | [] => ret a
  | i :: rest => bind (body i a) (for_each rest body)
  end.

(** Result, final hardware counters and emitted events of a run. *)
Definition value {A} (r : A * hw * list event) : A := fst (fst r).
Definition final {A} (r : A * hw * list event) : hw := snd (fst r).
Definition events {A} (r : A * hw * list event) : list event := snd r.

End Hw.

Declare Scope hw_scope.
Delimit Scope hw_scope with hw.
Notation "'let*' x ':=' m 'in' k" :=
  (Hw.bind m (fun x => k))
    (at level 10, x pattern, m at level 100, k at level 200) : hw_scope.
Notation "m ';;' k" :=
  (Hw.bind m (fun _ => k))
    (at level 100, k at level 200, right associativity) : hw_scope.

(** ** The single-sensor sketch *)

Module Single.
Import Mach Core Hw.
Local Open Scope hw_scope.

Definition moistureSensorPin : Z := A0.
Definition readInterval : Z := 5000.
Definition airValue : Z := 1023.
Definition waterValue : Z := 300.

Record globals : Type := {
  previousMillis : Z;
  rawMoistureValue : Z;
  moisturePercentage : Z
}.

Definition initial : globals :=
  {| previousMillis := 0; rawMoistureValue := 0; moisturePercentage := 0 |}.

Definition readSoilMoisture (g : globals) : M globals :=
  let* raw := analogRead moistureSensorPin in
  ret {| previousMillis := previousMillis g;
         rawMoistureValue := raw;
         moisturePercentage := to_percentage raw airValue waterValue |}.

Definition sendData (g : globals) : M unit :=
  print (TStr "DATA,") ;;
  print (TInt (rawMoistureValue g)) ;;
  print (TStr ",") ;;
  println (TInt (moisturePercentage g)).

Definition loop (g : globals) : M globals :=
  let* currentMillis := millis in
  if readInterval <=? ulong_sub currentMillis (previousMillis g) then
    let g1 := {| previousMillis := currentMillis;
                 rawMoistureValue := rawMoistureValue g;
                 moisturePercentage := moisturePercentage g |} in
    let* g2 := readSoilMoisture g1 in
    sendData g2 ;;
    ret g2
  else ret g.

(** [setup()] of the single-sensor sketch. *)
Definition setup : M unit :=
  emit (SerialBegin 9600) ;;
  delay 1000 ;;
  println (TStr "Soil Moisture Sensor System Starting") ;;
  println (TStr "Format: DATA,raw_value,moisture_percentage").

End Single.

(** ** The minimal two-sensor sketch *)

Module Minimal.
Import Mach Core Hw.
Local Open Scope hw_scope.

Definition moistureSensorA0 : Z := A0.
Definition moistureSensorA1 : Z := A1.
Definition sendInterval : Z := 5000.

Record globals : Type := { lastSendTime : Z }.

Definition initial : globals := {| lastSendTime := 0 |}.

(** [setup()]; on the Uno [Serial] converts to [true] at once, so the wait
    loop falls through. *)
Definition setup : M unit := emit (SerialBegin 9600).

Definition loop (g : globals) : M globals :=
  let* now := millis in
  if sendInterval <=? ulong_sub now (lastSendTime g) then
    let* moistureValueA0 := analogRead moistureSensorA0 in
    let* moistureValueA1 := analogRead moistureSensorA1 in
    let* timestamp := millis in
    print (TULong timestamp) ;;
    print (TStr ",") ;;
    print (TInt moistureValueA0) ;;
    print (TStr ",") ;;
    println (TInt moistureValueA1) ;;
    let* t := millis in
    ret {| lastSendTime := t |}
  else ret g.

End Minimal.

(** ** The enhanced two-sensor sketch *)

Module Enhanced.
Import Mach Core Hw Filter.
Local Open Scope hw_scope.

Definition moistureSensorA0 : Z := A0.
Definition moistureSensorA1 : Z := A1.
Definition sensorPowerPinA0 : Z := 7.
Definition sensorPowerPinA1 : Z := 8.
Definition sendInterval : Z := 5000.
Definition powerPrewarmTime : Z := 100.
Definition airValueA0 : Z := 1023.
Definition waterValueA0 : Z := 300.
Definition airValueA1 : Z := 1023.
Definition waterValueA1 : Z := 300.
Definition numReadings : nat := 5.

(** The file-scope variables one sensor owns; [readSensor] receives
    pointers to them.  ([averageReadingA0] and [averageReadingA1] are
    declared by the sketch but never read or written.) *)
Record channel : Type := {
  readings : list Z;
  totalReading : Z;
  rawValue : Z;
  percentage : Z;
  lastGoodReading : Z;
  sensorError : bool
}.

Record globals : Type := {
  lastSendTime : Z;
  readIndex : Z;
  chanA0 : channel;
  chanA1 : channel
}.

(** Static initialisers of the sketch (arrays at file scope start zeroed). *)
Definition initial_channel : channel :=
  {| readings := repeat 0 numReadings;
     totalReading := 0;
     rawValue := 0;
     percentage := 0;
     lastGoodReading := -1;
     sensorError := false |}.

Definition initial : globals :=
  {| lastSendTime := 0; readIndex := 0;
     chanA0 := initial_channel; chanA1 := initial_channel |}.

(** The out-of-range test of [checkSensor]. *)
Definition out_of_range (testReading : Z) : bool :=
  (testReading =? 0) || (testReading =? 1023).

Definition error_line (sensorPin : Z) : list token :=
  [TStr "ERROR: Sensor on pin A"; TInt (int_sub sensorPin A0);
   TStr " reading out of expected range. Check connections."].

(** [bool checkSensor(int sensorPin, bool *errorFlag)]: returns the
    function result paired with the new content of [*errorFlag]. *)
Definition checkSensor (sensorPin : Z) (errorFlag : bool) : M (bool * bool) :=
  let powerPin :=
    if sensorPin =? moistureSensorA0 then sensorPowerPinA0 else sensorPowerPinA1 in
  when (negb (powerPin =? -1))
       (digitalWrite powerPin true ;; delay powerPrewarmTime) ;;
  let* testReading := analogRead sensorPin in
  when (negb (powerPin =? -1)) (digitalWrite powerPin false) ;;
  if out_of_range testReading then
    if negb errorFlag then
      print (TStr "ERROR: Sensor on pin A") ;;
      print (TInt (int_sub sensorPin A0)) ;;
      println (TStr " reading out of expected range. Check connections.") ;;
      ret (false, true)
    else ret (false, errorFlag)
  else ret (true, false).

(** [tempReadings[i] = analogRead(sensorPin); delay(10);] for each [i]. *)
Definition take_samples (sensorPin : Z) (n : nat) : M (list Z) :=
  for_each (seq 0 n)
    (fun i tempReadings =>
       let* v := analogRead sensorPin in
       delay 10 ;;
       ret (<[i := v]> tempReadings))
    (repeat 0 n).

Definition readSensor (sensorPin powerPin : Z) (readIndex : Z)
           (airValue waterValue : Z) (c : channel) : M channel :=
  when (negb (powerPin =? -1))
       (digitalWrite powerPin true ;; delay powerPrewarmTime) ;;
  let* (ok, err) := checkSensor sensorPin (sensorError c) in
  let* c1 :=
    (if ok then
       let total1 :=
         int_sub (totalReading c) (nth (Z.to_nat readIndex) (readings c) 0) in
       let* tempReadings := take_samples sensorPin numReadings in
       let raw := median numReadings tempReadings in
       let readings1 := <[Z.to_nat readIndex := raw]> (readings c) in
       let total2 := int_add total1 raw in
       let average := int_div total2 (Z.of_nat numReadings) in
       ret {| readings := readings1;
              totalReading := total2;
              rawValue := raw;
              percentage := to_percentage average airValue waterValue;
              lastGoodReading := raw;
              sensorError := err |}
     else
       if negb (lastGoodReading c =? -1) then
         let raw := lastGoodReading c in
         print (TStr "WARNING: Using last good reading for A") ;;
         print (TInt (int_sub sensorPin A0)) ;;
         print (TStr ": ") ;;
         println (TInt raw) ;;
         ret {| readings := readings c;
                totalReading := totalReading c;
                rawValue := raw;
                percentage := to_percentage raw airValue waterValue;
                lastGoodReading := lastGoodReading c;
                sensorError := err |}
       else
         ret {| readings := readings c;
                totalReading := totalReading c;
                rawValue := rawValue c;
                percentage := percentage c;
                lastGoodReading := lastGoodReading c;
                sensorError := err |}) in
  when (negb (powerPin =? -1)) (digitalWrite powerPin false) ;;
  ret c1.

Definition readSensors (g : globals) : M globals :=
  let* c0 := readSensor moistureSensorA0 sensorPowerPinA0 (readIndex g)
                        airValueA0 waterValueA0 (chanA0 g) in
  let* c1 := readSensor moistureSensorA1 sensorPowerPinA1 (readIndex g)
                        airValueA1 waterValueA1 (chanA1 g) in
  ret {| lastSendTime := lastSendTime g; readIndex := readIndex g;
         chanA0 := c0; chanA1 := c1 |}.

Definition data_line (timestamp rawA0 rawA1 : Z) : list event :=
  [Print (TULong timestamp); Print (TStr ","); Print (TInt rawA0);
   Print (TStr ","); Println (TInt rawA1)].

Definition sendData (g : globals) : M unit :=
  let* timestamp := millis in
  print (TULong timestamp) ;;
  print (TStr ",") ;;
  print (TInt (rawValue (chanA0 g))) ;;
  print (TStr ",") ;;
  println (TInt (rawValue (chanA1 g))).

(** The guard of [loop]: [now - lastSendTime >= sendInterval] on
    [unsigned long]. *)
Definition due (now lastSend : Z) : bool :=
  sendInterval <=? ulong_sub now lastSend.

Definition loop (g : globals) : M globals :=
  let* now := millis in
  if due now (lastSendTime g) then
    let* g1 := readSensors g in
    sendData g1 ;;
    let* t := millis in
    ret {| lastSendTime := t; readIndex := readIndex g1;
           chanA0 := chanA0 g1; chanA1 := chanA1 g1 |}
  else ret g.

(** [setup()]; on the Uno [Serial] converts to [true] at once, so the wait
    loop falls through. *)
Definition setup (g : globals) : M globals :=
  emit (SerialBegin 9600) ;;
  when (negb (sensorPowerPinA0 =? -1))
       (emit (PinModeOutput sensorPowerPinA0) ;; digitalWrite sensorPowerPinA0 false) ;;
  when (negb (sensorPowerPinA1 =? -1))
       (emit (PinModeOutput sensorPowerPinA1) ;; digitalWrite sensorPowerPinA1 false) ;;
  let zeroed :=
    fold_left (fun rs i => (<[i := 0]> (fst rs), <[i := 0]> (snd rs)))
              (seq 0 numReadings)
              (readings (chanA0 g), readings (chanA1 g)) in
  println (TStr "Soil Moisture Dual Sensor System Starting") ;;
  println (TStr "Format: timestamp,moisture_A0,moisture_A1") ;;
  let* r0 := checkSensor moistureSensorA0 (sensorError (chanA0 g)) in
  let* r1 := checkSensor moistureSensorA1 (sensorError (chanA1 g)) in
  let c0 := {| readings := fst zeroed; totalReading := totalReading (chanA0 g);
               rawValue := rawValue (chanA0 g); percentage := percentage (chanA0 g);
               lastGoodReading := lastGoodReading (chanA0 g);
               sensorError := snd r0 |} in
  let c1 := {| readings := snd zeroed; totalReading := totalReading (chanA1 g);
               rawValue := rawValue (chanA1 g); percentage := percentage (chanA1 g);
               lastGoodReading := lastGoodReading (chanA1 g);
               sensorError := snd r1 |} in
  ret {| lastSendTime := lastSendTime g; readIndex := readIndex g;
         chanA0 := c0; chanA1 := c1 |}.

(** [setup] once, then [loop] the given number of times. *)
Fixpoint loops (k : nat) (g : globals) : M globals :=
  match k with
  | O => ret g
  | S k' => let* g1 := loop g in loops k' g1
  end.

Definition sketch (k : nat) : M globals :=
  let* g := setup initial in loops k g.

End Enhanced.

(** ** Observations on runs of the enhanced sketch *)

Module Obs.
Import Mach Core Hw Filter Enhanced.
Local Open Scope hw_scope.

(** The serial output cut into lines: a line is the tokens printed up to
    and including a [println]. *)
Fixpoint lines_from (cur : list token) (evs : list event) : list (list token) :=
  match evs with
  | [] => []
  | Print t :: rest => lines_from (cur ++ [t]) rest
  | Println t :: rest => (cur ++ [t]) :: lines_from [] rest
  | _ :: rest => lines_from cur rest
  end.

Definition serial_lines (evs : list event) : list (list token) :=
  lines_from [] evs.

(** Tokens printed and not yet terminated by a [println]. *)
Fixpoint pending (cur : list token) (evs : list event) : list token :=
  match evs with
  | [] => cur
  | Print t :: rest => pending (cur ++ [t]) rest
  | Println _ :: rest => pending [] rest
  | _ :: rest => pending cur rest
  end.

(** A periodic report line: [<unsigned long>,<int>,<int>]. *)
Definition is_data_line (l : list token) : bool :=
  match l with
  | [TULong _; TStr s1; TInt _; TStr s2; TInt _] =>
      String.eqb s1 "," && String.eqb s2 ","
  | _ => false
  end.

Definition starts_with (p : string) (l : list token) : bool :=
  match l with
  | TStr s :: _ => String.prefix p s
  | _ => false
  end.

Definition is_error_line : list token -> bool := starts_with "ERROR:".
Definition is_warning_line : list token -> bool := starts_with "WARNING:".

Definition data_lines (evs : list event) : list (list token) :=
  List.filter is_data_line (serial_lines evs).
Definition error_lines (evs : list event) : list (list token) :=
  List.filter is_error_line (serial_lines evs).
Definition warning_lines (evs : list event) : list (list token) :=
  List.filter is_warning_line (serial_lines evs).

Definition warning_line (sensorPin raw : Z) : list token :=
  [TStr "WARNING: Using last good reading for A"; TInt (int_sub sensorPin A0);
   TStr ": "; TInt raw].

(** The level of [powerPin] at each conversion on [sensorPin], in order,
    given the level before the first event. *)
Fixpoint power_at_reads (powerPin sensorPin : Z) (level : bool)
         (evs : list event) : list bool :=
  match evs with
  | [] => []
  | DigitalWrite p b :: rest =>
      power_at_reads powerPin sensorPin (if p =? powerPin then b else level) rest
  | AnalogRead p _ :: rest =>
      if p =? sensorPin
      then level :: power_at_reads powerPin sensorPin level rest
      else power_at_reads powerPin sensorPin level rest
  | _ :: rest => power_at_reads powerPin sensorPin level rest
  end.

(** The codes of [k] conversions on [pin] starting at conversion [r]. *)
Fixpoint conversions (e : env) (pin : Z) (r k : nat) : list Z :=
  match k with
  | O => []
  | S k' => adc e pin r :: conversions e pin (S r) k'
  end.

(** The [numReadings] filter samples starting at conversion [r]. *)
Definition samples_at (e : env) (pin : Z) (r : nat) : list Z :=
  conversions e pin r numReadings.

(** [k] consecutive acquisition cycles of sensor A0, as [readSensors]
    calls them. *)
Fixpoint cyclesA0 (idx : Z) (k : nat) (c : channel) : M channel :=
  match k with
  | O => ret c
  | S k' =>
      let* c1 := readSensor moistureSensorA0 sensorPowerPinA0 idx
                            airValueA0 waterValueA0 c in
      cyclesA0 idx k' c1
  end.

(** [k] consecutive calls of [checkSensor] on one pin, threading the flag. *)
Fixpoint check_run (sensorPin : Z) (k : nat) (errorFlag : bool) : M bool :=
  match k with
  | O => ret errorFlag
  | S k' =>
      let* r := checkSensor sensorPin errorFlag in
      check_run sensorPin k' (snd r)
  end.

(** Starts of runs of [true] in a sequence, [prev] being the element
    before the first one. *)
Fixpoint rising_edges (prev : bool) (l : list bool) : nat :=
  match l with
  | [] => O
  | b :: rest => ((if b && negb prev then 1 else 0) + rising_edges b rest)%nat
  end.

(** Whether the [loop] entered at hardware state [h] passes its guard. *)
Definition fires (g : globals) (e : env) (h : hw) : bool :=
  due (ulong_wrap (clock e (ticks h))) (lastSendTime g).

(** The guard's outcome in each of [k] consecutive iterations of [loop]. *)
Fixpoint fire_log (k : nat) (g : globals) (e : env) (h : hw) : list bool :=
  match k with
  | O => []
  | S k' =>
      let r := loop g e h in
      fires g e h :: fire_log k' (value r) e (final r)
  end.

Definition power_on : hw := {| reads := 0; ticks := 0 |}.

(** A sensor that has produced nothing yet: its variables still hold
    their static initialisers (the error flag apart). *)
Definition untouched (c : channel) : Prop :=
  readings c = readings initial_channel /\
  totalReading c = 0 /\ rawValue c = 0 /\ percentage c = 0 /\
  lastGoodReading c = -1.

Definition percentage_ok (c : channel) : Prop := 0 <= percentage c <= 100.

(** Every iteration of [loop] sees one timestamp: 0, 4999, 5000, 9999,
    10000 in turn (an iteration that passes the guard reads the clock
    three times). *)
Definition five_timestamps : env :=
  {| adc := fun _ _ => 600;
     clock := fun k => nth k [0; 4999; 5000; 5000; 5000; 9999; 10000; 10000; 10000] 0 |}.

(** The clock advances while a cycle runs: the guard is checked at 5000,
    the report is stamped and the send time recorded 500 ms later. *)
Definition advancing_clock : env :=
  {| adc := fun _ _ => 600; clock := fun k => nth k [5000; 5500; 5500] 0 |}.

(** The last report went out 296 ms before the counter wraps; the clock
    is then read 4999 ms and 5000 ms after that report. *)
Definition near_wrap : globals :=
  {| lastSendTime := 4294967000; readIndex := 0;
     chanA0 := initial_channel; chanA1 := initial_channel |}.

Definition wrapping_clock : env :=
  {| adc := fun _ _ => 600;
     clock := fun k => 4294967296 + nth k [4703; 4704; 4704; 4704] 0 |}.

Definition after_setup (e : env) : globals * hw * list event :=
  setup initial e power_on.

(** What every cycle leaves in a sensor's variables when all its
    conversions yield 600. *)
Definition steady_600_channel : channel :=
  {| readings := [600; 0; 0; 0; 0]; totalReading := 600; rawValue := 600;
     percentage := 100; lastGoodReading := 600; sensorError := false |}.

(** Sensor A1 is not wired and reads 1023 at every conversion; sensor A0
    reads 600. *)
Definition unwired_A1 : env :=
  {| adc := fun pin _ => if pin =? Core.A1 then 1023 else 600;
     clock := fun k => 5000 * (Z.of_nat k + 1) |}.

(** Validation readings valid, invalid, invalid, valid on every pin. *)
Definition one_episode : env :=
  {| adc := fun _ k => nth k [600; 1023; 1023; 600] 0; clock := fun _ => 0 |}.

(** Every conversion yields [v]; the clock advances enough between any two
    reads for every iteration of [loop] to pass its guard. *)
Definition steady (v : Z) : env :=
  {| adc := fun _ _ => v; clock := fun k => 5000 * (Z.of_nat k + 1) |}.

End Obs.

(** ** Further observations: pin levels, blocking time, converter range *)

Module Probe.
Import Mach Core Hw Filter Enhanced Obs.

(** The level of [pin] after the events, given its level before them. *)
Fixpoint final_level (pin : Z) (level : bool) (evs : list event) : bool :=
  match evs with
  | [] => level
  | DigitalWrite p b :: rest => final_level pin (if p =? pin then b else level) rest
  | _ :: rest => final_level pin level rest
  end.

(** Milliseconds spent in [delay]. *)
Fixpoint total_delay (evs : list event) : Z :=
  match evs with
  | [] => 0
  | Delay ms :: rest => ms + total_delay rest
  | _ :: rest => total_delay rest
  end.

(** What [take_samples] emits for the codes it converted. *)
Definition sample_events (pin : Z) (codes : list Z) : list event :=
  flat_map (fun v => [AnalogRead pin v; Delay 10]) codes.

(** The converter is a 10-bit one: every code is within 0..1023. *)
Definition adc_in_range (e : env) : Prop :=
  forall pin k, 0 <= adc e pin k <= 1023.

Definition sum_list (l : list Z) : Z := fold_right Z.add 0 l.

(** What the enhanced sketch keeps true of a sensor's variables. *)
Definition channel_ok (c : channel) : Prop :=
  readings c = [totalReading c; 0; 0; 0; 0] /\
  0 <= totalReading c <= 1023 /\
  0 <= rawValue c <= 1023 /\
  (lastGoodReading c = -1 \/ 0 <= lastGoodReading c <= 1023) /\
  0 <= percentage c <= 100.

Definition count_true (l : list bool) : nat :=
  length (List.filter (fun b => b) l).

Definition banner : list (list token) :=
  [[TStr "Soil Moisture Dual Sensor System Starting"];
   [TStr "Format: timestamp,moisture_A0,moisture_A1"]].

(** The guard of the single-sensor sketch's [loop] at hardware state [h]. *)
Definition single_fires (g : Single.globals) (e : env) (h : hw) : bool :=
  Single.readInterval
  <=? ulong_sub (ulong_wrap (clock e (ticks h))) (Single.previousMillis g).

(** The guard of the minimal sketch's [loop] at hardware state [h]. *)
Definition minimal_fires (g : Minimal.globals) (e : env) (h : hw) : bool :=
  Minimal.sendInterval
  <=? ulong_sub (ulong_wrap (clock e (ticks h))) (Minimal.lastSendTime g).

(** Conversions 612, 598, 1023, 601, 600, then 600 for ever, on every pin. *)
Definition one_spike : env :=
  {| adc := fun _ k => nth k [600; 612; 598; 1023; 601; 600] 600;
     clock := fun k => 5000 * (Z.of_nat k + 1) |}.

End Probe.

(** * Properties *)

(** ** Machine integers *)

Section MachFacts.
Import Mach.

Lemma int_wrap_id z : is_int z -> int_wrap z = z.
Proof.
  unfold is_int, int_wrap. intros H.
  rewrite Z.mod_small by lia. lia.
Qed.

Lemma long_wrap_id z : -2147483648 <= z <= 2147483647 -> long_wrap z = z.
Proof.
  unfold long_wrap. intros H.
  rewrite Z.mod_small by lia. lia.
Qed.

Lemma int_wrap_range z : is_int (int_wrap z).
Proof.
  unfold is_int, int_wrap.
  pose proof (Z.mod_pos_bound (z + 32768) 65536 ltac:(lia)). lia.
Qed.

Lemma ulong_wrap_range z : 0 <= ulong_wrap z < 4294967296.
Proof. unfold ulong_wrap. apply Z.mod_pos_bound. lia. Qed.

End MachFacts.

(** ** The bubble sort sorts, and its middle element is a median *)

Section SortFacts.
Import Filter.

Lemma swap_step_app pre x y l :
  swap_step (pre ++ x :: y :: l) (length pre)
  = pre ++ (if x >? y then y :: x :: l else x :: y :: l).
Proof.
  induction pre as [|a pre IH].
  - unfold swap_step; simpl. destruct (x >? y); reflexivity.
  - unfold swap_step in *; simpl in *.
    destruct (nth (length pre) (pre ++ x :: y :: l) 0
              >? nth (length pre + 1) (pre ++ x :: y :: l) 0).
    + rewrite IH. reflexivity.
    + rewrite IH. reflexivity.
Qed.

Lemma fold_swap_step m : forall pre x l,
  (m <= length l)%nat ->
  fold_left swap_step (seq (length pre) m) (pre ++ x :: l)
  = pre ++ bubble_up x (take m l) ++ drop m l.
Proof.
  induction m as [|m IH]; intros pre x l Hm.
  - simpl. rewrite drop_0. reflexivity.
  - destruct l as [|y l]; [simpl in Hm; lia|].
    simpl in Hm. cbn [seq fold_left]. rewrite swap_step_app.
    cbn [take firstn drop skipn bubble_up].
    destruct (x >? y).
    + replace (pre ++ y :: x :: l) with ((pre ++ [y]) ++ x :: l)
        by (rewrite <- app_assoc; reflexivity).
      replace (S (length pre)) with (length (pre ++ [y]))
        by (rewrite length_app; simpl; lia).
      rewrite IH by lia. rewrite <- app_assoc. reflexivity.
    + replace (pre ++ x :: y :: l) with ((pre ++ [x]) ++ y :: l)
        by (rewrite <- app_assoc; reflexivity).
      replace (S (length pre)) with (length (pre ++ [x]))
        by (rewrite length_app; simpl; lia).
      rewrite IH by lia. rewrite <- app_assoc. reflexivity.
Qed.

Lemma pass_from_start m x l :
  (m <= length l)%nat ->
  fold_left swap_step (seq 0 m) (x :: l) = bubble_up x (take m l) ++ drop m l.
Proof. intros Hm. exact (fold_swap_step m [] x l Hm). Qed.

Lemma bubble_up_perm l : forall x, Permutation (bubble_up x l) (x :: l).
Proof.
  induction l as [|y l IH]; intros x; simpl.
  - apply Permutation_refl.
  - destruct (x >? y).
    + rewrite IH. apply perm_swap.
    + rewrite IH. apply Permutation_refl.
Qed.

Lemma bubble_up_max l : forall x,
  exists q mx, bubble_up x l = q ++ [mx] /\ Forall (fun z => z <= mx) q.
Proof.
  induction l as [|y l IH]; intros x; simpl.
  - exists [], x. split; [reflexivity | constructor].
  - destruct (x >? y) eqn:E.
    + destruct (IH x) as (q & mx & Hq & Hall).
      exists (y :: q), mx. rewrite Hq. split; [reflexivity|].
      constructor; [|exact Hall].
      assert (In x (q ++ [mx])) as Hin.
      { rewrite <- Hq. apply (Permutation_in x (Permutation_sym (bubble_up_perm l x))).
        left; reflexivity. }
      apply in_app_or in Hin. destruct Hin as [Hin|[->|[]]]; [|lia].
      rewrite List.Forall_forall in Hall. specialize (Hall x Hin). lia.
    + destruct (IH y) as (q & mx & Hq & Hall).
      exists (x :: q), mx. rewrite Hq. split; [reflexivity|].
      constructor; [|exact Hall].
      assert (In y (q ++ [mx])) as Hin.
      { rewrite <- Hq. apply (Permutation_in y (Permutation_sym (bubble_up_perm l y))).
        left; reflexivity. }
      apply in_app_or in Hin. destruct Hin as [Hin|[->|[]]]; [|lia].
      rewrite List.Forall_forall in Hall. specialize (Hall y Hin). lia.
Qed.

Lemma inner_loop_perm n i a :
  length a = n -> Permutation (inner_loop n i a) a.
Proof.
  intros Hlen. unfold inner_loop. destruct a as [|x l].
  - simpl in Hlen. subst n. simpl. apply Permutation_refl.
  - simpl in Hlen.
    rewrite pass_from_start by lia.
    rewrite bubble_up_perm. simpl. rewrite take_drop. apply Permutation_refl.
Qed.

Lemma inner_loop_settles n i a :
  length a = n -> (S i < n)%nat -> settled i a -> settled (S i) (inner_loop n i a).
Proof.
  intros Hlen Hi (p & s & -> & Hs & Hsorted & Hle).
  rewrite length_app in Hlen.
  destruct p as [|x l]; [simpl in Hlen; lia|]. simpl in Hlen.
  unfold inner_loop.
  replace (n - i - 1)%nat with (length l) by lia.
  change ((x :: l) ++ s) with (x :: (l ++ s)).
  rewrite pass_from_start by (rewrite length_app; lia).
  rewrite take_app_length, drop_app_length.
  destruct (bubble_up_max l x) as (q & mx & Hq & Hq_le).
  pose proof (bubble_up_perm l x) as Hperm. rewrite Hq in Hperm.
  assert (forall z, In z (q ++ [mx]) -> Forall (fun y => z <= y) s) as Hfront.
  { intros z Hz. rewrite List.Forall_forall in Hle. apply Hle.
    apply (Permutation_in z Hperm Hz). }
  exists q, (mx :: s). rewrite Hq, <- app_assoc. repeat split.
  - simpl. lia.
  - constructor; [exact Hsorted|].
    apply Hfront, in_or_app. right; left; reflexivity.
  - rewrite List.Forall_forall. intros z Hz. constructor.
    + rewrite List.Forall_forall in Hq_le. apply Hq_le, Hz.
    + apply Hfront, in_or_app. left; exact Hz.
Qed.

Lemma outer_loop_settles n k : forall i a,
  length a = n -> (i + k < n)%nat -> settled i a ->
  settled (i + k) (fold_left (fun a i => inner_loop n i a) (seq i k) a).
Proof.
  induction k as [|k IH]; intros i a Hlen Hik Hset.
  - simpl. rewrite Nat.add_0_r. exact Hset.
  - cbn [seq fold_left]. replace (i + S k)%nat with (S i + k)%nat by lia.
    apply IH.
    + rewrite (Permutation_length (inner_loop_perm n i a Hlen)). exact Hlen.
    + lia.
    + apply inner_loop_settles; [exact Hlen | lia | exact Hset].
Qed.

Lemma outer_loop_perm n k : forall i a,
  length a = n ->
  Permutation (fold_left (fun a i => inner_loop n i a) (seq i k) a) a.
Proof.
  induction k as [|k IH]; intros i a Hlen.
  - apply Permutation_refl.
  - cbn [seq fold_left].
    pose proof (inner_loop_perm n i a Hlen) as Hp.
    rewrite IH by (rewrite (Permutation_length Hp); exact Hlen).
    exact Hp.
Qed.

Lemma bubble_sort_perm n a :
  length a = n -> Permutation (bubble_sort n a) a.
Proof. intros Hlen. apply outer_loop_perm, Hlen. Qed.

Lemma bubble_sort_length n a :
  length a = n -> length (bubble_sort n a) = n.
Proof.
  intros Hlen. rewrite (Permutation_length (bubble_sort_perm n a Hlen)). exact Hlen.
Qed.

Lemma bubble_sort_sorted n a :
  length a = n -> StronglySorted Z.le (bubble_sort n a).
Proof.
  intros Hlen. destruct n as [|n].
  - destruct a; [|discriminate]. constructor.
  - pose proof (bubble_sort_length (S n) a Hlen) as Hl.
    assert (settled 0 a) as H0.
    { exists a, []. rewrite app_nil_r. repeat split; try constructor.
      rewrite List.Forall_forall. intros; constructor. }
    pose proof (outer_loop_settles (S n) n 0 a Hlen ltac:(lia) H0) as Hs.
    unfold bubble_sort in *. replace (S n - 1)%nat with n in * by lia.
    simpl in Hs. destruct Hs as (p & s & Heq & Hls & Hsorted & Hle).
    rewrite Heq in *. rewrite length_app in Hl.
    destruct p as [|x [|y p]]; simpl in Hl; try lia.
    simpl. constructor; [exact Hsorted|].
    inversion Hle; subst. assumption.
Qed.

Lemma sorted_nth_le s :
  StronglySorted Z.le s ->
  forall i j, (i <= j < length s)%nat -> nth i s 0 <= nth j s 0.
Proof.
  induction 1 as [|x s Hs IH Hx]; intros i j Hij; simpl in Hij; [lia|].
  destruct i as [|i], j as [|j]; simpl; try lia.
  - rewrite List.Forall_forall in Hx. apply Hx, nth_In. lia.
  - apply IH. lia.
Qed.

Lemma sorted_perm_unique s1 :
  StronglySorted Z.le s1 ->
  forall s2, StronglySorted Z.le s2 -> Permutation s1 s2 -> s1 = s2.
Proof.
  induction 1 as [|x s1 Hs1 IH Hx]; intros s2 Hs2 Hperm.
  - apply Permutation_nil in Hperm. subst. reflexivity.
  - destruct s2 as [|y s2].
    { apply Permutation_sym, Permutation_nil in Hperm. discriminate. }
    inversion Hs2 as [|? ? Hs2' Hy]; subst.
    rewrite List.Forall_forall in Hx, Hy.
    assert (x = y) as ->.
    { assert (In y (x :: s1)) as [->|Hin1]
          by (apply (Permutation_in y (Permutation_sym Hperm)); left; reflexivity);
        [reflexivity|].
      assert (In x (y :: s2)) as [->|Hin2]
          by (apply (Permutation_in x Hperm); left; reflexivity);
        [reflexivity|].
      specialize (Hx y Hin1). specialize (Hy x Hin2). lia. }
    f_equal. apply IH; [exact Hs2'|].
    apply Permutation_cons_inv with y. exact Hperm.
Qed.

Lemma count_perm (f : Z -> bool) l l' :
  Permutation l l' -> length (List.filter f l) = length (List.filter f l').
Proof.
  induction 1 as [|x l l' Hp IH|x y l|l l' l'' H1 IH1 H2 IH2]; simpl.
  - reflexivity.
  - destruct (f x); simpl; congruence.
  - destruct (f x), (f y); reflexivity.
  - congruence.
Qed.

Lemma count_lt_bound v s : forall k,
  (forall j, (k <= j < length s)%nat -> v <= nth j s 0) ->
  (count_lt v s <= k)%nat.
Proof.
  unfold count_lt.
  induction s as [|x s IH]; intros k Hk; simpl; [lia|].
  destruct k as [|k].
  - assert ((x <? v) = false) as ->
        by (apply Z.ltb_ge; apply (Hk 0%nat); simpl; lia).
    apply (IH 0%nat). intros j Hj. apply (Hk (S j)). simpl; lia.
  - assert (length (List.filter (fun x => (x <? v)%Z) s) <= k)%nat as Hle.
    { apply IH. intros j Hj. apply (Hk (S j)). simpl; lia. }
    destruct (x <? v); simpl; lia.
Qed.

Lemma count_gt_bound v s : forall k,
  (k < length s)%nat ->
  (forall j, (j <= k)%nat -> nth j s 0 <= v) ->
  (count_gt v s <= length s - S k)%nat.
Proof.
  unfold count_gt.
  induction s as [|x s IH]; intros k Hlen Hk; simpl in *; [lia|].
  assert ((v <? x) = false) as -> by (apply Z.ltb_ge; apply (Hk 0%nat); lia).
  destruct k as [|k].
  - pose proof (filter_length_le (fun x => v <? x) s). lia.
  - apply IH; [lia|]. intros j Hj. apply (Hk (S j)). lia.
Qed.

End SortFacts.

(** ** The percentage mapping *)

Section PercentageFacts.
Import Mach Core.

Lemma constrain_range p : 0 <= constrain p 0 100 <= 100.
Proof.
  unfold constrain.
  destruct (p <? 0) eqn:E1; [lia|].
  destruct (p >? 100) eqn:E2; lia.
Qed.

Lemma to_percentage_range v air water : 0 <= to_percentage v air water <= 100.
Proof. unfold to_percentage. apply constrain_range. Qed.

Lemma quot_abs_le a b : Z.abs (Z.quot a b) <= Z.abs a.
Proof.
  destruct (Z.eq_dec b 0) as [->|Hne].
  - rewrite Zquot_0_r. lia.
  - rewrite <- Z.quot_abs by exact Hne.
    rewrite Z.quot_div_nonneg by lia.
    apply Z.div_le_upper_bound; nia.
Qed.

(** [map] on 16-bit arguments with distinct calibration bounds never
    overflows its [long] arithmetic. *)
Lemma map_int v air water :
  is_int v -> is_int air -> is_int water ->
  map v air water 0 100 = Z.quot ((v - air) * 100) (water - air).
Proof.
  unfold is_int, map. intros Hv Ha Hw.
  rewrite (long_wrap_id (v - air)) by lia.
  rewrite (long_wrap_id (100 - 0)) by lia.
  rewrite (long_wrap_id (water - air)) by lia.
  rewrite (long_wrap_id ((v - air) * (100 - 0))) by lia.
  pose proof (quot_abs_le ((v - air) * (100 - 0)) (water - air)) as Hq.
  rewrite (long_wrap_id (Z.quot _ _)) by lia.
  rewrite Z.add_0_r.
  rewrite long_wrap_id by lia.
  reflexivity.
Qed.

Lemma to_percentage_dry air water : to_percentage air air water = 0.
Proof.
  unfold to_percentage, map. rewrite Z.sub_diag.
  change (long_wrap 0) with 0. rewrite Z.mul_0_l.
  change (long_wrap 0) with 0. rewrite Zquot_0_l.
  reflexivity.
Qed.

Lemma to_percentage_wet air water :
  is_int air -> is_int water -> water <> air ->
  to_percentage water air water = 100.
Proof.
  intros Ha Hw Hne. unfold to_percentage.
  rewrite map_int by assumption.
  rewrite (Z.mul_comm (water - air) 100), Z.quot_mul by lia. reflexivity.
Qed.

(** With the calibration both sketches use (dry 1023, wet 300) the
    narrowing of [map]'s result to [int] loses nothing. *)
Lemma to_percentage_sketch v :
  is_int v ->
  to_percentage v 1023 300 = constrain (Z.quot ((v - 1023) * 100) (-723)) 0 100.
Proof.
  intros Hv. unfold to_percentage.
  rewrite map_int by (unfold is_int in *; lia).
  change (300 - 1023) with (-723).
  rewrite int_wrap_id; [reflexivity|].
  unfold is_int in *.
  change (-723) with (- (723)). rewrite Zquot_opp_r.
  assert (Z.abs (Z.quot ((v - 1023) * 100) 723) <= 4674) as Hb.
  { rewrite <- (Z.quot_abs _ 723) by lia.
    rewrite Z.quot_div_nonneg by lia.
    apply Z.div_le_upper_bound; lia. }
  lia.
Qed.

Lemma to_percentage_beyond_dry v :
  is_int v -> 1023 <= v -> to_percentage v 1023 300 = 0.
Proof.
  intros Hv Hdry. rewrite to_percentage_sketch by exact Hv.
  change (-723) with (- (723)). rewrite Zquot_opp_r.
  assert (0 <= Z.quot ((v - 1023) * 100) 723) as Hq
      by (apply Z.quot_pos; lia).
  unfold constrain.
  destruct (_ <? 0) eqn:E1; [reflexivity|].
  destruct (_ >? 100) eqn:E2; lia.
Qed.

Lemma to_percentage_beyond_wet v :
  is_int v -> v <= 300 -> to_percentage v 1023 300 = 100.
Proof.
  intros Hv Hwet. rewrite to_percentage_sketch by exact Hv.
  replace ((v - 1023) * 100) with (- ((1023 - v) * 100)) by lia.
  change (-723) with (- (723)). rewrite Zquot_opp_opp.
  rewrite Z.quot_div_nonneg by lia.
  assert (100 <= (1023 - v) * 100 / 723) as Hq
      by (apply Z.div_le_lower_bound; lia).
  unfold constrain.
  destruct (_ <? 0) eqn:E1; [lia|].
  destruct (_ >? 100) eqn:E2; lia.
Qed.

End PercentageFacts.

(** ** Running the hardware monad *)

Section RunFacts.
Import Hw.

Lemma run_bind {A B} (m : M A) (k : A -> M B) e h :
  bind m k e h =
  (value (k (value (m e h)) e (final (m e h))),
   final (k (value (m e h)) e (final (m e h))),
   events (m e h) ++ events (k (value (m e h)) e (final (m e h)))).
Proof.
  unfold bind, value, final, events.
  destruct (m e h) as [[a h1] out1]; simpl.
  destruct (k a e h1) as [[b h2] out2]; reflexivity.
Qed.

Lemma value_bind {A B} (m : M A) (k : A -> M B) e h :
  value (bind m k e h) = value (k (value (m e h)) e (final (m e h))).
Proof. rewrite run_bind. reflexivity. Qed.

Lemma final_bind {A B} (m : M A) (k : A -> M B) e h :
  final (bind m k e h) = final (k (value (m e h)) e (final (m e h))).
Proof. rewrite run_bind. reflexivity. Qed.

Lemma events_bind {A B} (m : M A) (k : A -> M B) e h :
  events (bind m k e h)
  = events (m e h) ++ events (k (value (m e h)) e (final (m e h))).
Proof. rewrite run_bind. reflexivity. Qed.

Lemma run_eta {A} (r : A * hw * list event) :
  r = (value r, final r, events r).
Proof. destruct r as [[a h] out]; reflexivity. Qed.

End RunFacts.

(** ** One call of [checkSensor] and of [readSensor] *)

Ltac run_hw :=
  unfold Hw.when, Hw.print, Hw.println, Hw.digitalWrite, Hw.delay,
    Hw.analogRead, Hw.millis, Hw.emit;
  cbn -[Filter.median nth Enhanced.out_of_range Core.to_percentage
        Mach.int_add Mach.int_sub Mach.int_div Mach.ulong_wrap Enhanced.due
        Obs.lines_from Obs.power_at_reads];
  unfold Hw.bind, Hw.ret;
  cbn -[Filter.median nth Enhanced.out_of_range Core.to_percentage
        Mach.int_add Mach.int_sub Mach.int_div Mach.ulong_wrap Enhanced.due
        Obs.lines_from Obs.power_at_reads].

Section CycleFacts.
Import Mach Core Hw Filter Enhanced Obs.

Lemma checkSensor_run pin flag e h :
  value (checkSensor pin flag e h)
  = (negb (out_of_range (adc e pin (reads h))),
     out_of_range (adc e pin (reads h))) /\
  final (checkSensor pin flag e h)
  = {| reads := S (reads h); ticks := ticks h |}.
Proof.
  unfold checkSensor.
  destruct (pin =? moistureSensorA0); run_hw.
  all: destruct (out_of_range _), flag; run_hw; split; reflexivity.
Qed.

Lemma checkSensor_lines pin flag e h rest :
  serial_lines (events (checkSensor pin flag e h) ++ rest)
  = (if out_of_range (adc e pin (reads h)) && negb flag
     then [error_line pin] else [])
    ++ serial_lines rest.
Proof.
  unfold checkSensor, serial_lines.
  destruct (pin =? moistureSensorA0); run_hw.
  all: destruct (out_of_range _), flag; run_hw; reflexivity.
Qed.

Lemma readSensor_good pin pw idx air water c e h :
  out_of_range (adc e pin (reads h)) = false ->
  let raw := median numReadings (samples_at e pin (S (reads h))) in
  let total :=
    int_add (int_sub (totalReading c) (nth (Z.to_nat idx) (readings c) 0)) raw in
  value (readSensor pin pw idx air water c e h)
  = {| readings := <[Z.to_nat idx := raw]> (readings c);
       totalReading := total;
       rawValue := raw;
       percentage := to_percentage (int_div total 5) air water;
       lastGoodReading := raw;
       sensorError := false |} /\
  final (readSensor pin pw idx air water c e h)
  = {| reads := (6 + reads h)%nat; ticks := ticks h |}.
Proof.
  intros Hok. unfold readSensor, checkSensor, take_samples.
  destruct (pw =? -1), (pin =? moistureSensorA0); run_hw.
  all: rewrite Hok; run_hw; split; reflexivity.
Qed.

Lemma readSensor_bad pin pw idx air water c e h :
  out_of_range (adc e pin (reads h)) = true ->
  value (readSensor pin pw idx air water c e h)
  = (if lastGoodReading c =? -1
     then {| readings := readings c;
             totalReading := totalReading c;
             rawValue := rawValue c;
             percentage := percentage c;
             lastGoodReading := lastGoodReading c;
             sensorError := true |}
     else {| readings := readings c;
             totalReading := totalReading c;
             rawValue := lastGoodReading c;
             percentage := to_percentage (lastGoodReading c) air water;
             lastGoodReading := lastGoodReading c;
             sensorError := true |}) /\
  final (readSensor pin pw idx air water c e h)
  = {| reads := S (reads h); ticks := ticks h |}.
Proof.
  intros Hbad. unfold readSensor, checkSensor, take_samples.
  destruct (pw =? -1), (pin =? moistureSensorA0); run_hw.
  all: rewrite Hbad; run_hw.
  all: destruct (sensorError c), (lastGoodReading c =? -1); run_hw;
    split; reflexivity.
Qed.

Lemma readSensor_lines pin pw idx air water c e h rest :
  serial_lines (events (readSensor pin pw idx air water c e h) ++ rest)
  = (if out_of_range (adc e pin (reads h)) && negb (sensorError c)
     then [error_line pin] else [])
    ++ (if out_of_range (adc e pin (reads h)) && negb (lastGoodReading c =? -1)
        then [warning_line pin (lastGoodReading c)] else [])
    ++ serial_lines rest.
Proof.
  unfold readSensor, checkSensor, take_samples, serial_lines.
  destruct (pw =? -1), (pin =? moistureSensorA0); run_hw.
  all: destruct (out_of_range _); run_hw; [|reflexivity].
  all: destruct (sensorError c), (lastGoodReading c =? -1); run_hw;
    reflexivity.
Qed.

Lemma readSensor_pending pin pw idx air water c e h rest :
  pending [] (events (readSensor pin pw idx air water c e h) ++ rest)
  = pending [] rest.
Proof.
  unfold readSensor, checkSensor, take_samples.
  destruct (pw =? -1), (pin =? moistureSensorA0); run_hw.
  all: destruct (out_of_range _); run_hw; [|reflexivity].
  all: destruct (sensorError c), (lastGoodReading c =? -1); run_hw;
    reflexivity.
Qed.

End CycleFacts.

(** ** The sample filter *)

Section FilterFacts.
Import Mach Core Hw Filter Enhanced Obs.

(** C3: a valid cycle of [readSensor] stores in [rawValue] the filter's
    result on the [numReadings] samples it has just converted.  For an odd
    number [n] of readings the filter returns the element at position [n/2]
    of the ascending arrangement of its input (whichever way that arrangement
    is obtained); the value occurs in the input, and at most [ceil(n/2) - 1]
    readings are strictly below it and as many strictly above it. *)
Theorem median_filter_correct (n : nat) (a : list Z) :
  Nat.odd n = true ->
  length a = n ->
  (forall pin pw idx air water c e h,
      out_of_range (adc e pin (reads h)) = false ->
      rawValue (value (readSensor pin pw idx air water c e h))
      = median numReadings (samples_at e pin (S (reads h)))) /\
  StronglySorted Z.le (bubble_sort n a) /\
  Permutation (bubble_sort n a) a /\
  (forall s, StronglySorted Z.le s -> Permutation s a ->
             median n a = nth (n / 2) s 0) /\
  In (median n a) a /\
  (count_lt (median n a) a <= (n + 1) / 2 - 1)%nat /\
  (count_gt (median n a) a <= (n + 1) / 2 - 1)%nat.
Proof.
  intros Hodd Hlen.
  pose proof (bubble_sort_sorted n a Hlen) as Hsorted.
  pose proof (bubble_sort_perm n a Hlen) as Hperm.
  pose proof (bubble_sort_length n a Hlen) as Hl.
  apply Nat.odd_spec in Hodd. destruct Hodd as [k Hk].
  assert (n / 2 = k)%nat as Hhalf.
  { subst n. rewrite Nat.mul_comm, Nat.div_add_l by lia. simpl. lia. }
  assert ((n + 1) / 2 - 1 = k)%nat as Hceil.
  { replace (n + 1)%nat with ((k + 1) * 2)%nat by lia.
    rewrite Nat.div_mul by lia. lia. }
  rewrite Hceil.
  split.
  { intros pin pw idx air water c e h Hok.
    destruct (readSensor_good pin pw idx air water c e h Hok) as [-> _].
    cbn [rawValue]. reflexivity. }
  unfold median. rewrite Hhalf.
  repeat split.
  - exact Hsorted.
  - exact Hperm.
  - intros s Hs Hps.
    rewrite (sorted_perm_unique _ Hsorted s Hs); [reflexivity|].
    rewrite Hperm. apply Permutation_sym, Hps.
  - apply (Permutation_in _ Hperm). apply nth_In. lia.
  - unfold count_lt. rewrite <- (count_perm _ _ _ Hperm).
    apply count_lt_bound. intros j Hj. apply sorted_nth_le; [exact Hsorted|lia].
  - unfold count_gt. rewrite <- (count_perm _ _ _ Hperm).
    pose proof (count_gt_bound (nth k (bubble_sort n a) 0) (bubble_sort n a) k
                  ltac:(lia)) as Hb.
    unfold count_gt in Hb.
    assert (length (bubble_sort n a) - S k = k)%nat as Hr by lia.
    rewrite Hr in Hb. apply Hb.
    intros j Hj. apply sorted_nth_le; [exact Hsorted|lia].
Qed.

Lemma median_filter_correct_witness :
  Nat.odd 5 = true /\ length [612; 598; 1023; 601; 600] = 5%nat /\
  In (median 5 [612; 598; 1023; 601; 600]) [612; 598; 1023; 601; 600] /\
  (count_lt (median 5 [612; 598; 1023; 601; 600]%Z) [612; 598; 1023; 601; 600]%Z <= 2)%nat.
Proof.
  pose proof (median_filter_correct 5 [612; 598; 1023; 601; 600]
                eq_refl eq_refl) as (_ & _ & _ & _ & Hin & Hlt & _).
  repeat split; [exact Hin | exact Hlt].
Defined.

End FilterFacts.

(** ** The sticky error flag *)

Section StickyFacts.
Import Mach Core Hw Filter Enhanced Obs.

Lemma last_cons {A} (b : A) l d : List.last (b :: l) d = List.last l b.
Proof.
  revert b d. induction l as [|a l IH]; intros b d; [reflexivity|].
  change (List.last (b :: a :: l) d) with (List.last (a :: l) d).
  rewrite (IH a d), (IH a b). reflexivity.
Qed.

Lemma error_lines_check pin flag e h rest :
  error_lines (events (checkSensor pin flag e h) ++ rest)
  = (if out_of_range (adc e pin (reads h)) && negb flag
     then [error_line pin] else [])
    ++ error_lines rest.
Proof.
  unfold error_lines. rewrite checkSensor_lines, List.filter_app.
  destruct (_ && _); reflexivity.
Qed.

Lemma check_run_spec pin e k : forall flag h,
  let bad := List.map out_of_range (conversions e pin (reads h) k) in
  value (check_run pin k flag e h) = List.last bad flag /\
  error_lines (events (check_run pin k flag e h))
  = repeat (error_line pin) (rising_edges flag bad).
Proof.
  induction k as [|k IH]; intros flag h; cbn zeta.
  - split; reflexivity.
  - cbn [check_run conversions List.map rising_edges].
    rewrite value_bind, events_bind.
    destruct (checkSensor_run pin flag e h) as [Hv Hf].
    rewrite Hv, Hf. cbn [fst snd].
    specialize (IH (out_of_range (adc e pin (reads h)))
                   {| reads := S (reads h); ticks := ticks h |}).
    cbn zeta in IH. cbn [reads] in IH. destruct IH as [IHv IHe].
    split.
    + rewrite last_cons. exact IHv.
    + rewrite error_lines_check, IHe.
      destruct (_ && _); reflexivity.
Qed.

(** C4: a validation reading at a rail extreme sets the flag and any other
    reading clears it, in [checkSensor] and hence in [readSensor]; the
    out-of-range line is printed exactly when the reading is invalid and
    the flag was clear.  Over consecutive validations the flag therefore
    follows the last reading and the number of lines printed is the number
    of runs of invalid readings; for valid, invalid, invalid, valid one line
    is printed, at the first invalid reading. *)
Theorem sticky_error_edge_triggered pin e :
  (forall flag h,
      let r := checkSensor pin flag e h in
      let bad := out_of_range (adc e pin (reads h)) in
      fst (value r) = negb bad /\ snd (value r) = bad /\
      error_lines (events r)
      = if bad && negb flag then [error_line pin] else []) /\
  (forall pw idx air water c h,
      let r := readSensor pin pw idx air water c e h in
      let bad := out_of_range (adc e pin (reads h)) in
      sensorError (value r) = bad /\
      error_lines (events r)
      = if bad && negb (sensorError c) then [error_line pin] else []) /\
  (forall k flag h,
      let r := check_run pin k flag e h in
      let bad := List.map out_of_range (conversions e pin (reads h) k) in
      value r = List.last bad flag /\
      error_lines (events r) = repeat (error_line pin) (rising_edges flag bad)) /\
  List.map (fun k => (value (check_run pin k false one_episode power_on),
                      length (error_lines
                                (events (check_run pin k false one_episode power_on)))))
           [1; 2; 3; 4]%nat
  = [(false, 0); (true, 1); (true, 1); (false, 1)]%nat.
Proof.
  repeat split.
  - destruct (checkSensor_run pin flag e h) as [-> _]. reflexivity.
  - destruct (checkSensor_run pin flag e h) as [-> _]. reflexivity.
  - rewrite <- (app_nil_r (events _)), error_lines_check.
    destruct (_ && _); reflexivity.
  - destruct (out_of_range (adc e pin (reads h))) eqn:E.
    + destruct (readSensor_bad pin pw idx air water c e h E) as [-> _].
      destruct (_ =? _); reflexivity.
    + destruct (readSensor_good pin pw idx air water c e h E) as [-> _].
      reflexivity.
  - rewrite <- (app_nil_r (events _)). unfold error_lines.
    rewrite readSensor_lines, !List.filter_app.
    destruct (out_of_range _), (sensorError c), (_ =? _); reflexivity.
  - apply check_run_spec.
  - apply check_run_spec.
  - pose proof (fun k => check_run_spec pin one_episode k false power_on) as H.
    cbn zeta in H. cbn [List.map].
    rewrite !(proj1 (H _)), !(proj2 (H _)). reflexivity.
Qed.

End StickyFacts.

(** ** [readSensors], [sendData], [loop] and [setup] *)

Section LoopFacts.
Import Mach Core Hw Filter Enhanced Obs.

Lemma readSensor_ticks pin pw idx air water c e h :
  ticks (final (readSensor pin pw idx air water c e h)) = ticks h.
Proof.
  destruct (out_of_range (adc e pin (reads h))) eqn:E.
  - destruct (readSensor_bad pin pw idx air water c e h E) as [_ ->].
    reflexivity.
  - destruct (readSensor_good pin pw idx air water c e h E) as [_ ->].
    reflexivity.
Qed.

Lemma readSensors_run g e h :
  readSensors g e h =
  (let r0 := readSensor moistureSensorA0 sensorPowerPinA0 (readIndex g)
                        airValueA0 waterValueA0 (chanA0 g) e h in
   let r1 := readSensor moistureSensorA1 sensorPowerPinA1 (readIndex g)
                        airValueA1 waterValueA1 (chanA1 g) e (final r0) in
   ({| lastSendTime := lastSendTime g; readIndex := readIndex g;
       chanA0 := value r0; chanA1 := value r1 |},
    final r1, events r0 ++ events r1)).
Proof.
  unfold readSensors, bind, ret, value, final, events.
  destruct (readSensor moistureSensorA0 _ _ _ _ _ e h) as [[c0 h0] o0]; simpl.
  destruct (readSensor moistureSensorA1 _ _ _ _ _ e h0) as [[c1 h1] o1]; simpl.
  rewrite app_nil_r. reflexivity.
Qed.

Lemma readSensors_ticks g e h :
  ticks (final (readSensors g e h)) = ticks h.
Proof.
  rewrite readSensors_run. cbn [final fst snd].
  rewrite !readSensor_ticks. reflexivity.
Qed.

Lemma readSensors_lines g e h rest :
  data_lines (events (readSensors g e h) ++ rest) = data_lines rest.
Proof.
  rewrite readSensors_run. cbn [events snd].
  unfold data_lines.
  rewrite <- app_assoc, readSensor_lines, readSensor_lines.
  rewrite !List.filter_app.
  destruct (_ && _), (_ && _), (_ && _), (_ && _); reflexivity.
Qed.

Lemma readSensors_pending g e h rest :
  pending [] (events (readSensors g e h) ++ rest) = pending [] rest.
Proof.
  rewrite readSensors_run. cbn [events snd].
  rewrite <- app_assoc, !readSensor_pending. reflexivity.
Qed.

Lemma loop_run g e h :
  loop g e h =
  (let now := ulong_wrap (clock e (ticks h)) in
   let h1 := {| reads := reads h; ticks := S (ticks h) |} in
   if due now (lastSendTime g) then
     let r := readSensors g e h1 in
     ({| lastSendTime := ulong_wrap (clock e (S (ticks (final r))));
         readIndex := readIndex (value r);
         chanA0 := chanA0 (value r); chanA1 := chanA1 (value r) |},
      {| reads := reads (final r); ticks := S (S (ticks (final r))) |},
      events r ++ data_line (ulong_wrap (clock e (ticks (final r))))
                            (rawValue (chanA0 (value r)))
                            (rawValue (chanA1 (value r))))
   else (g, h1, [])).
Proof.
  unfold loop, sendData, millis, print, println, emit, bind, ret.
  cbn -[due ulong_wrap].
  destruct (due _ _); [|reflexivity].
  destruct (readSensors g e _) as [[g1 h2] o]. reflexivity.
Qed.

Lemma loop_idle g e h :
  fires g e h = false ->
  loop g e h = (g, {| reads := reads h; ticks := S (ticks h) |}, []).
Proof.
  unfold fires. intros Hf. rewrite loop_run. cbn zeta. rewrite Hf. reflexivity.
Qed.

Lemma loop_fired g e h :
  fires g e h = true ->
  let r := loop g e h in
  let cycle := readSensors g e {| reads := reads h; ticks := S (ticks h) |} in
  chanA0 (value r) = chanA0 (value cycle) /\
  chanA1 (value r) = chanA1 (value cycle) /\
  events r = events cycle
             ++ data_line (ulong_wrap (clock e (S (ticks h))))
                          (rawValue (chanA0 (value cycle)))
                          (rawValue (chanA1 (value cycle))).
Proof.
  unfold fires. intros Hf. cbn zeta. rewrite loop_run. cbn zeta. rewrite Hf.
  cbn [value final events fst snd chanA0 chanA1].
  rewrite readSensors_ticks. repeat split.
Qed.

(** C9: an iteration of [loop] that passes its guard sends exactly one
    report line, made of the timestamp read in [sendData] followed by the
    [rawValue] variables of sensor A0 and of sensor A1 as the cycle left
    them (the percentages are not sent); the line is terminated within the
    iteration, so nothing is left pending, and an iteration that does not
    pass the guard sends nothing. *)
Theorem one_report_line_per_cycle g e h :
  let r := loop g e h in
  let ts := ulong_wrap (clock e (S (ticks h))) in
  let cycle := readSensors g e {| reads := reads h; ticks := S (ticks h) |} in
  if fires g e h then
    events r = events cycle
               ++ data_line ts (rawValue (chanA0 (value r)))
                               (rawValue (chanA1 (value r))) /\
    chanA0 (value r) = chanA0 (value cycle) /\
    chanA1 (value r) = chanA1 (value cycle) /\
    data_lines (events r)
    = [[TULong ts; TStr ","; TInt (rawValue (chanA0 (value r)));
        TStr ","; TInt (rawValue (chanA1 (value r)))]] /\
    pending [] (events r) = []
  else events r = [] /\ value r = g.
Proof.
  cbn zeta. destruct (fires g e h) eqn:Hf.
  - destruct (loop_fired g e h Hf) as (H0 & H1 & Hev).
    rewrite Hev, H0, H1. repeat split.
    + rewrite readSensors_lines. reflexivity.
    + rewrite readSensors_pending. reflexivity.
  - rewrite (loop_idle g e h Hf). split; reflexivity.
Qed.

Lemma setup_run e h :
  let g := value (setup initial e h) in
  lastSendTime g = 0 /\ readIndex g = 0 /\
  untouched (chanA0 g) /\ untouched (chanA1 g).
Proof.
  cbn zeta. unfold setup.
  rewrite !value_bind.
  cbn -[checkSensor]. unfold untouched. cbn. repeat split.
Qed.

Lemma loops_preserve (P : globals -> Prop) e :
  (forall g h, P g -> P (value (loop g e h))) ->
  forall k g h, P g -> P (value (loops k g e h)).
Proof.
  intros Hstep. induction k as [|k IH]; intros g h Hg.
  - exact Hg.
  - cbn [loops]. rewrite value_bind. apply IH, Hstep, Hg.
Qed.

Lemma sketch_preserve (P : globals -> Prop) e :
  (forall h, P (value (setup initial e h))) ->
  (forall g h, P g -> P (value (loop g e h))) ->
  forall k h, P (value (sketch k e h)).
Proof.
  intros Hsetup Hstep k h. unfold sketch. rewrite value_bind.
  apply loops_preserve; [exact Hstep | apply Hsetup].
Qed.

Lemma loop_channels (P0 P1 : channel -> Prop) e :
  (forall idx c h,
      P0 c -> P0 (value (readSensor moistureSensorA0 sensorPowerPinA0 idx
                                    airValueA0 waterValueA0 c e h))) ->
  (forall idx c h,
      P1 c -> P1 (value (readSensor moistureSensorA1 sensorPowerPinA1 idx
                                    airValueA1 waterValueA1 c e h))) ->
  forall g h,
    P0 (chanA0 g) /\ P1 (chanA1 g) ->
    P0 (chanA0 (value (loop g e h))) /\ P1 (chanA1 (value (loop g e h))).
Proof.
  intros H0 H1 g h [Hg0 Hg1]. rewrite loop_run. cbn zeta.
  destruct (due _ _); [|split; assumption].
  cbn [value fst chanA0 chanA1]. rewrite readSensors_run.
  cbn [value fst chanA0 chanA1]. split; [apply H0 | apply H1]; assumption.
Qed.

Lemma readSensor_untouched pin pw idx air water c e h :
  out_of_range (adc e pin (reads h)) = true ->
  untouched c -> untouched (value (readSensor pin pw idx air water c e h)).
Proof.
  intros Hbad (Hr & Ht & Hv & Hp & Hl).
  destruct (readSensor_bad pin pw idx air water c e h Hbad) as [-> _].
  rewrite Hl. cbn. unfold untouched; cbn. repeat split; assumption.
Qed.

Lemma readSensor_percentage_ok pin pw idx air water c e h :
  percentage_ok c ->
  percentage_ok (value (readSensor pin pw idx air water c e h)).
Proof.
  intros Hc. unfold percentage_ok.
  destruct (out_of_range (adc e pin (reads h))) eqn:E.
  - destruct (readSensor_bad pin pw idx air water c e h E) as [-> _].
    destruct (_ =? _); cbn [percentage];
      [exact Hc | apply to_percentage_range].
  - destruct (readSensor_good pin pw idx air water c e h E) as [-> _].
    cbn [percentage]. apply to_percentage_range.
Qed.

(** A sensor whose validation reading is out of range at every conversion
    never leaves its initial state, however long the sketch runs. *)
Lemma never_valid_untouched e :
  (forall k, out_of_range (adc e moistureSensorA0 k) = true) ->
  forall k h, untouched (chanA0 (value (sketch k e h))).
Proof.
  intros Hbad k h.
  apply (sketch_preserve (fun g => untouched (chanA0 g) /\ True) e).
  - intros h0. split; [apply setup_run | exact I].
  - apply (loop_channels untouched (fun _ => True)).
    + intros idx c h0 Hc. apply readSensor_untouched; [apply Hbad | exact Hc].
    + intros; exact I.
Qed.

End LoopFacts.

(** ** Cycles whose validation reading is out of range *)

Section FallbackFacts.
Import Mach Core Hw Filter Enhanced Obs.

Lemma warning_lines_cycle pin pw idx air water c e h :
  warning_lines (events (readSensor pin pw idx air water c e h))
  = if out_of_range (adc e pin (reads h)) && negb (lastGoodReading c =? -1)
    then [warning_line pin (lastGoodReading c)] else [].
Proof.
  rewrite <- (app_nil_r (events _)). unfold warning_lines.
  rewrite readSensor_lines, !List.filter_app.
  destruct (out_of_range _), (sensorError c), (_ =? _); reflexivity.
Qed.

(** C5: when the validation reading is out of range, [readSensor] converts
    nothing further and leaves the readings array and the running total as
    they were.  With a last good reading cached (not -1) it copies that
    value to [rawValue], recomputes the clamped percentage from it and
    prints the warning line; with none cached it leaves [rawValue],
    [percentage] and the cache untouched and prints no warning.  A sensor
    that reads 1023 at every conversion therefore never gets a cached
    value. *)
Theorem invalid_cycle_falls_back :
  (forall pin pw idx air water c e h,
      out_of_range (adc e pin (reads h)) = true ->
      let r := readSensor pin pw idx air water c e h in
      readings (value r) = readings c /\
      totalReading (value r) = totalReading c /\
      reads (final r) = S (reads h) /\
      lastGoodReading (value r) = lastGoodReading c /\
      (lastGoodReading c <> -1 ->
       rawValue (value r) = lastGoodReading c /\
       percentage (value r) = to_percentage (lastGoodReading c) air water /\
       0 <= percentage (value r) <= 100 /\
       warning_lines (events r) = [warning_line pin (lastGoodReading c)]) /\
      (lastGoodReading c = -1 ->
       rawValue (value r) = rawValue c /\
       percentage (value r) = percentage c /\
       warning_lines (events r) = [])) /\
  (forall e,
      (forall k, adc e moistureSensorA0 k = 1023) ->
      forall k h,
        lastGoodReading (chanA0 (value (sketch k e h))) = -1 /\
        warning_lines
          (events (readSensor moistureSensorA0 sensorPowerPinA0 0
                              airValueA0 waterValueA0
                              (chanA0 (value (sketch k e h))) e
                              (final (sketch k e h)))) = []).
Proof.
  split.
  - intros pin pw idx air water c e h Hbad. cbn zeta.
    destruct (readSensor_bad pin pw idx air water c e h Hbad) as [Hv Hf].
    rewrite warning_lines_cycle, Hv, Hf, Hbad.
    destruct (lastGoodReading c =? -1) eqn:E; cbn.
    + apply Z.eqb_eq in E. repeat split; try reflexivity; intros; congruence.
    + apply Z.eqb_neq in E. repeat split; try reflexivity;
        try (intros; congruence); apply to_percentage_range.
  - intros e Hrail k h.
    assert (forall j, out_of_range (adc e moistureSensorA0 j) = true) as Hbad
        by (intros j; rewrite Hrail; reflexivity).
    destruct (never_valid_untouched e Hbad k h) as (_ & _ & _ & _ & Hl).
    split; [exact Hl|].
    rewrite warning_lines_cycle, Hl. rewrite andb_false_r. reflexivity.
Qed.

Lemma invalid_cycle_falls_back_witness :
  let c := {| readings := [600; 0; 0; 0; 0]; totalReading := 600;
              rawValue := 600; percentage := 100;
              lastGoodReading := 600; sensorError := false |} in
  let r := readSensor moistureSensorA0 sensorPowerPinA0 0 airValueA0 waterValueA0
                      c (steady 1023) power_on in
  out_of_range (adc (steady 1023) moistureSensorA0 (reads power_on)) = true /\
  totalReading (value r) = 600 /\
  rawValue (value r) = 600 /\
  lastGoodReading (chanA0 (value (sketch 3 (steady 1023) power_on))) = -1.
Proof.
  cbn zeta.
  pose proof (proj1 invalid_cycle_falls_back
                moistureSensorA0 sensorPowerPinA0 0 airValueA0 waterValueA0
                {| readings := [600; 0; 0; 0; 0]; totalReading := 600;
                   rawValue := 600; percentage := 100;
                   lastGoodReading := 600; sensorError := false |}
                (steady 1023) power_on eq_refl) as H1.
  pose proof (proj2 invalid_cycle_falls_back (steady 1023)
                (fun _ => eq_refl) 3%nat power_on) as H2.
  cbn zeta in H1. destruct H1 as (_ & Ht & _ & _ & Hc & _).
  destruct (Hc ltac:(discriminate)) as (Hraw & _).
  destruct H2 as [Hl _].
  split; [reflexivity|]. split; [exact Ht|]. split; [exact Hraw | exact Hl].
Defined.

Lemma never_valid_untouched_A1 e :
  (forall k, out_of_range (adc e moistureSensorA1 k) = true) ->
  forall k h, untouched (chanA1 (value (sketch k e h))).
Proof.
  intros Hbad k h.
  apply (sketch_preserve (fun g => True /\ untouched (chanA1 g)) e).
  - intros h0. split; [exact I | apply setup_run].
  - apply (loop_channels (fun _ => True) untouched).
    + intros; exact I.
    + intros idx c h0 Hc. apply readSensor_untouched; [apply Hbad | exact Hc].
Qed.

Lemma fired_line g e h :
  fires g e h = true ->
  data_lines (events (loop g e h))
  = [[TULong (ulong_wrap (clock e (S (ticks h)))); TStr ",";
      TInt (rawValue (chanA0 (value (loop g e h)))); TStr ",";
      TInt (rawValue (chanA1 (value (loop g e h))))]].
Proof.
  intros Hf. destruct (loop_fired g e h Hf) as (H0 & H1 & Hev).
  rewrite Hev, H0, H1, readSensors_lines. reflexivity.
Qed.

(** C10: a sensor, A0 or A1, none of whose validation readings has been
    in range keeps its variables at their initial values, [rawValue] = 0
    among them: a cycle whose validation reading is out of range leaves an
    untouched sensor untouched, in [readSensor] for any pin and hence in each
    iteration of [loop] for either sensor.  Such an iteration, when it passes
    its guard, still sends its report line, with 0 in that sensor's field.
    In particular, while every conversion of sensor A0 (of sensor A1) is out
    of range, [rawValueA0] ([rawValueA1]) is 0 at any point of the run and
    every report line carries 0 in the A0 (A1) field. *)
Theorem never_valid_reports_zero :
  (forall pin pw idx air water c e h,
      untouched c ->
      out_of_range (adc e pin (reads h)) = true ->
      untouched (value (readSensor pin pw idx air water c e h)) /\
      rawValue (value (readSensor pin pw idx air water c e h)) = 0) /\
  (forall g e h,
      fires g e h = true ->
      let h1 := {| reads := reads h; ticks := S (ticks h) |} in
      let r0 := readSensor moistureSensorA0 sensorPowerPinA0 (readIndex g)
                           airValueA0 waterValueA0 (chanA0 g) e h1 in
      let next := loop g e h in
      let ts := ulong_wrap (clock e (S (ticks h))) in
      (untouched (chanA0 g) ->
       out_of_range (adc e moistureSensorA0 (reads h)) = true ->
       untouched (chanA0 (value next)) /\
       data_lines (events next)
       = [[TULong ts; TStr ","; TInt 0; TStr ",";
           TInt (rawValue (chanA1 (value next)))]]) /\
      (untouched (chanA1 g) ->
       out_of_range (adc e moistureSensorA1 (reads (final r0))) = true ->
       untouched (chanA1 (value next)) /\
       data_lines (events next)
       = [[TULong ts; TStr ","; TInt (rawValue (chanA0 (value next)));
           TStr ","; TInt 0]])) /\
  (forall e,
      (forall k, out_of_range (adc e moistureSensorA0 k) = true) ->
      forall k h,
        let r := sketch k e h in
        let next := loop (value r) e (final r) in
        rawValue (chanA0 (value r)) = 0 /\
        (fires (value r) e (final r) = true ->
         data_lines (events next)
         = [[TULong (ulong_wrap (clock e (S (ticks (final r)))));
             TStr ","; TInt 0; TStr ",";
             TInt (rawValue (chanA1 (value next)))]])) /\
  (forall e,
      (forall k, out_of_range (adc e moistureSensorA1 k) = true) ->
      forall k h,
        let r := sketch k e h in
        let next := loop (value r) e (final r) in
        rawValue (chanA1 (value r)) = 0 /\
        (fires (value r) e (final r) = true ->
         data_lines (events next)
         = [[TULong (ulong_wrap (clock e (S (ticks (final r)))));
             TStr ","; TInt (rawValue (chanA0 (value next)));
             TStr ","; TInt 0]])).
Proof.
  assert (forall g e h,
             fires g e h = true ->
             (untouched (chanA0 g) ->
              out_of_range (adc e moistureSensorA0 (reads h)) = true ->
              untouched (chanA0 (value (loop g e h)))) /\
             (untouched (chanA1 g) ->
              out_of_range
                (adc e moistureSensorA1
                   (reads (final (readSensor moistureSensorA0 sensorPowerPinA0
                                             (readIndex g) airValueA0 waterValueA0
                                             (chanA0 g) e
                                             {| reads := reads h;
                                                ticks := S (ticks h) |}))))
              = true ->
              untouched (chanA1 (value (loop g e h))))) as Hstep.
  { intros g e h Hf. destruct (loop_fired g e h Hf) as (H0 & H1 & _).
    rewrite H0, H1, readSensors_run. cbn [value fst chanA0 chanA1].
    split; intros Hu Hbad; apply readSensor_untouched; assumption. }
  split; [|split; [|split]].
  - intros pin pw idx air water c e h Hu Hbad.
    pose proof (readSensor_untouched pin pw idx air water c e h Hbad Hu) as Hu1.
    split; [exact Hu1 | apply Hu1].
  - intros g e h Hf. cbn zeta.
    destruct (Hstep g e h Hf) as [HA0 HA1].
    split; intros Hu Hbad.
    + pose proof (HA0 Hu Hbad) as Hu1. split; [exact Hu1|].
      rewrite (fired_line g e h Hf).
      destruct Hu1 as (_ & _ & -> & _). reflexivity.
    + pose proof (HA1 Hu Hbad) as Hu1. split; [exact Hu1|].
      rewrite (fired_line g e h Hf).
      destruct Hu1 as (_ & _ & -> & _). reflexivity.
  - intros e Hbad k h. cbn zeta.
    pose proof (never_valid_untouched e Hbad k h) as Hk.
    split; [apply Hk|]. intros Hf.
    destruct (Hstep _ _ _ Hf) as [HA0 _].
    rewrite (fired_line _ _ _ Hf).
    destruct (HA0 Hk (Hbad _)) as (_ & _ & -> & _). reflexivity.
  - intros e Hbad k h. cbn zeta.
    pose proof (never_valid_untouched_A1 e Hbad k h) as Hk.
    split; [apply Hk|]. intros Hf.
    destruct (Hstep _ _ _ Hf) as [_ HA1].
    rewrite (fired_line _ _ _ Hf).
    destruct (HA1 Hk (Hbad _)) as (_ & _ & -> & _). reflexivity.
Qed.

Lemma never_valid_reports_zero_witness :
  (forall k, out_of_range (adc (steady 1023) moistureSensorA0 k) = true) /\
  (forall k, out_of_range (adc unwired_A1 moistureSensorA1 k) = true) /\
  (let r := sketch 2 (steady 1023) power_on in
   rawValue (chanA0 (value r)) = 0 /\
   fires (value r) (steady 1023) (final r) = true /\
   data_lines (events (loop (value r) (steady 1023) (final r)))
   = [[TULong 40000; TStr ","; TInt 0; TStr ","; TInt 0]]) /\
  (let r := sketch 2 unwired_A1 power_on in
   rawValue (chanA1 (value r)) = 0 /\
   fires (value r) unwired_A1 (final r) = true /\
   data_lines (events (loop (value r) unwired_A1 (final r)))
   = [[TULong 40000; TStr ","; TInt 600; TStr ","; TInt 0]]).
Proof.
  split; [intros k; reflexivity|]. split; [intros k; reflexivity|].
  destruct never_valid_reports_zero as (_ & _ & HA0 & HA1).
  split; cbn zeta.
  - destruct (HA0 (steady 1023) (fun _ => eq_refl) 2%nat power_on)
      as [Hraw Hline].
    split; [exact Hraw|]. split; [reflexivity|].
    rewrite (Hline eq_refl). reflexivity.
  - destruct (HA1 unwired_A1 (fun _ => eq_refl) 2%nat power_on)
      as [Hraw Hline].
    split; [exact Hraw|]. split; [reflexivity|].
    rewrite (Hline eq_refl). vm_compute. reflexivity.
Defined.

End FallbackFacts.

(** ** The percentage after every cycle *)

Section ClampFacts.
Import Mach Core Hw Filter Enhanced Obs.

(** C7: the percentage both sketches compute is within 0..100 for every
    input and calibration; a reading equal to the dry bound gives 0 and one
    equal to the wet bound gives 100; with the sketches' calibration (dry
    1023, wet 300) every [int] reading at or beyond the dry bound gives 0
    and every one at or beyond the wet bound gives 100.  Hence the
    single-sensor sketch's percentage is within 0..100 after every reading,
    and so are both percentages of the enhanced sketch after set-up and
    after every iteration of [loop]. *)
Theorem percentage_always_clamped :
  (forall v air water, 0 <= to_percentage v air water <= 100) /\
  (forall air water, to_percentage air air water = 0) /\
  (forall air water,
      is_int air -> is_int water -> water <> air ->
      to_percentage water air water = 100) /\
  (forall v, is_int v -> airValueA0 <= v ->
             to_percentage v airValueA0 waterValueA0 = 0) /\
  (forall v, is_int v -> v <= waterValueA0 ->
             to_percentage v airValueA0 waterValueA0 = 100) /\
  (forall g e h,
      let g1 := value (Single.readSoilMoisture g e h) in
      Single.rawMoistureValue g1 = adc e Single.moistureSensorPin (reads h) /\
      Single.moisturePercentage g1
      = to_percentage (Single.rawMoistureValue g1) Single.airValue Single.waterValue /\
      0 <= Single.moisturePercentage g1 <= 100) /\
  (forall k e h,
      percentage_ok (chanA0 (value (sketch k e h))) /\
      percentage_ok (chanA1 (value (sketch k e h)))).
Proof.
  split; [exact to_percentage_range|].
  split; [exact to_percentage_dry|].
  split; [exact to_percentage_wet|].
  split; [exact to_percentage_beyond_dry|].
  split; [exact to_percentage_beyond_wet|].
  split.
  - intros g e h. cbn zeta. unfold Single.readSoilMoisture.
    rewrite value_bind. cbn -[to_percentage].
    split; [reflexivity|]. split; [reflexivity|]. apply to_percentage_range.
  - intros k e h.
    apply (sketch_preserve
             (fun g => percentage_ok (chanA0 g) /\ percentage_ok (chanA1 g)) e).
    + intros h0. destruct (setup_run e h0) as (_ & _ & H0 & H1).
      destruct H0 as (_ & _ & _ & Hp0 & _), H1 as (_ & _ & _ & Hp1 & _).
      unfold percentage_ok. rewrite Hp0, Hp1. lia.
    + apply (loop_channels percentage_ok percentage_ok);
        intros; apply readSensor_percentage_ok; assumption.
Qed.

Lemma percentage_always_clamped_witness :
  to_percentage 300 1023 300 = 100 /\
  to_percentage 1100 airValueA0 waterValueA0 = 0 /\
  to_percentage 0 airValueA0 waterValueA0 = 100.
Proof.
  destruct percentage_always_clamped as (_ & _ & Hwet & Hdry_side & Hwet_side & _).
  split; [apply Hwet; unfold is_int; lia|].
  split; [apply Hdry_side | apply Hwet_side];
    unfold is_int, airValueA0, waterValueA0; lia.
Defined.

End ClampFacts.

(** ** The guard of [loop] *)

Section SchedulerFacts.
Import Mach Core Hw Filter Enhanced Obs.

Lemma ulong_sub_wrapped a b :
  ulong_sub (ulong_wrap a) (ulong_wrap b) = ulong_wrap (a - b).
Proof.
  unfold ulong_sub, ulong_wrap.
  rewrite Zminus_mod_idemp_l, Zminus_mod_idemp_r. reflexivity.
Qed.

Lemma loop_records_third_read g e h :
  fires g e h = true ->
  lastSendTime (value (loop g e h)) = ulong_wrap (clock e (S (S (ticks h)))).
Proof.
  unfold fires. intros Hf. rewrite loop_run. cbn zeta. rewrite Hf.
  cbn [value fst lastSendTime]. rewrite readSensors_ticks. reflexivity.
Qed.

(** C6, as the code has it: [loop] passes its guard exactly when the
    32-bit unsigned difference between the clock value read for the guard
    and [lastSendTime] reaches [sendInterval]; otherwise it changes and
    sends nothing.  When it passes, [lastSendTime] becomes the value of a
    further clock read made after the sensors were read and the report
    sent, which is the compared value when the clock did not move in
    between.  The guard is exact across wrap-around: with the previous
    send time taken at true time [t0] and [d < 2^32] ms elapsed, it passes
    exactly when [d >= sendInterval].  With the timestamps 0, 4999, 5000,
    9999, 10000, each held for one iteration, it passes at 5000 and 10000
    only; across the wrap it fails at 4999 ms elapsed and passes at 5000. *)
Theorem guard_uses_unsigned_difference :
  (forall g e h,
      let now := ulong_wrap (clock e (ticks h)) in
      let r := loop g e h in
      (fires g e h = true <-> sendInterval <= ulong_sub now (lastSendTime g)) /\
      (fires g e h = false -> value r = g /\ events r = []) /\
      (fires g e h = true ->
       lastSendTime (value r) = ulong_wrap (clock e (S (S (ticks h))))) /\
      (fires g e h = true ->
       clock e (S (S (ticks h))) = clock e (ticks h) ->
       lastSendTime (value r) = now)) /\
  (forall g e h t0 d,
      lastSendTime g = ulong_wrap t0 ->
      clock e (ticks h) = t0 + d ->
      0 <= d < 4294967296 ->
      (fires g e h = true <-> sendInterval <= d)) /\
  fire_log 5 (value (after_setup five_timestamps)) five_timestamps
           (final (after_setup five_timestamps))
  = [false; false; true; false; true] /\
  fire_log 2 near_wrap wrapping_clock power_on = [false; true].
Proof.
  split; [|split; [|split; reflexivity]].
  - intros g e h. cbn zeta. repeat split.
    + unfold fires, due. intros H. apply Z.leb_le, H.
    + unfold fires, due. intros H. apply Z.leb_le, H.
    + rewrite (loop_idle g e h H). reflexivity.
    + rewrite (loop_idle g e h H). reflexivity.
    + apply loop_records_third_read.
    + intros Hf Hsame. rewrite loop_records_third_read, Hsame by exact Hf.
      reflexivity.
  - intros g e h t0 d Hlast Hclock Hd.
    unfold fires, due. rewrite Hlast, Hclock, ulong_sub_wrapped.
    replace (t0 + d - t0) with d by lia.
    unfold ulong_wrap. rewrite Z.mod_small by lia.
    apply Z.leb_le.
Qed.

Lemma guard_uses_unsigned_difference_witness :
  let g := value (after_setup five_timestamps) in
  let h := {| reads := 2; ticks := 2 |} in
  fires g five_timestamps h = true /\
  lastSendTime (value (loop g five_timestamps h)) = 5000 /\
  (fires near_wrap wrapping_clock {| reads := 0; ticks := 1 |} = true <->
   sendInterval <= 5000).
Proof.
  cbn zeta.
  destruct guard_uses_unsigned_difference as (Hstep & Hwrap & _).
  destruct (Hstep (value (after_setup five_timestamps)) five_timestamps
                  {| reads := 2; ticks := 2 |}) as (_ & _ & _ & Hsame).
  split; [reflexivity|].
  split; [exact (Hsame eq_refl eq_refl)|].
  apply (Hwrap near_wrap wrapping_clock {| reads := 0; ticks := 1 |}
               4294967000 5000); [reflexivity | reflexivity | lia].
Defined.

(** C6, as stated, fails: the value recorded on passing the guard is not
    the value that was compared.  The guard is checked at 5000 ms; the
    cycle's delays let the clock advance, and 5500 is recorded. *)
Lemma recorded_time_is_not_compared_time :
  let g := value (after_setup advancing_clock) in
  let h := final (after_setup advancing_clock) in
  let now := ulong_wrap (clock advancing_clock (ticks h)) in
  fires g advancing_clock h = true /\
  now = 5000 /\
  lastSendTime (value (loop g advancing_clock h)) = 5500 /\
  lastSendTime (value (loop g advancing_clock h)) <> now.
Proof.
  cbn zeta. split; [reflexivity|]. split; [reflexivity|].
  split; [reflexivity|]. vm_compute. discriminate.
Qed.

End SchedulerFacts.

(** ** The running total and the write index *)

Section RollingFacts.
Import Mach Core Hw Filter Enhanced Obs.

Lemma loop_keeps_readIndex g e h :
  readIndex (value (loop g e h)) = readIndex g.
Proof.
  rewrite loop_run. cbn zeta. destruct (due _ _); [|reflexivity].
  cbn [value fst readIndex]. rewrite readSensors_run. reflexivity.
Qed.

Lemma steady_600_cycle c h :
  c = initial_channel \/ c = steady_600_channel ->
  value (readSensor moistureSensorA0 sensorPowerPinA0 0 airValueA0 waterValueA0
                    c (steady 600) h)
  = steady_600_channel.
Proof.
  intros Hc.
  destruct (readSensor_good moistureSensorA0 sensorPowerPinA0 0
              airValueA0 waterValueA0 c (steady 600) h eq_refl) as [-> _].
  destruct Hc as [-> | ->]; reflexivity.
Qed.

Lemma steady_600_cycles k : forall c h,
  c = initial_channel \/ c = steady_600_channel ->
  value (cyclesA0 0 (S k) c (steady 600) h) = steady_600_channel.
Proof.
  induction k as [|k IH]; intros c h Hc.
  - cbn [cyclesA0]. rewrite value_bind. cbn [cyclesA0 value ret fst].
    apply steady_600_cycle, Hc.
  - change (cyclesA0 0 (S (S k)) c)
      with (bind (readSensor moistureSensorA0 sensorPowerPinA0 0
                             airValueA0 waterValueA0 c)
                 (fun c1 => cyclesA0 0 (S k) c1)).
    rewrite value_bind. apply IH. right. apply steady_600_cycle, Hc.
Qed.

(** C1, on the code: a valid cycle subtracts [readings[readIndex]] from the
    total, stores the new sample in that slot and adds it to the total, but
    no iteration of [loop] changes [readIndex], so every sample lands in
    slot 0.  Fed the sample 600 any number of times (five or more included),
    the total is 600 and the average 120, where the last five samples sum to
    3000 and average 600. *)
Theorem write_index_never_advances :
  (forall pin pw idx air water c e h,
      out_of_range (adc e pin (reads h)) = false ->
      let c1 := value (readSensor pin pw idx air water c e h) in
      readings c1 = <[Z.to_nat idx := rawValue c1]> (readings c) /\
      totalReading c1
      = int_add (int_sub (totalReading c) (nth (Z.to_nat idx) (readings c) 0))
                (rawValue c1)) /\
  (forall g e h, readIndex (value (loop g e h)) = readIndex g) /\
  (forall k e h, readIndex (value (sketch k e h)) = 0) /\
  (forall k h,
      let c := value (cyclesA0 0 (S k) initial_channel (steady 600) h) in
      readings c = [600; 0; 0; 0; 0] /\ totalReading c = 600 /\
      int_div (totalReading c) (Z.of_nat numReadings) = 120) /\
  (let g := value (sketch 5 (steady 600) power_on) in
   List.map (fun l => nth 2 l (TInt 0))
            (data_lines (events (sketch 5 (steady 600) power_on)))
   = [TInt 600; TInt 600; TInt 600; TInt 600; TInt 600] /\
   totalReading (chanA0 g) = 600 /\
   totalReading (chanA0 g) <> 600 + 600 + 600 + 600 + 600).
Proof.
  split.
  { intros pin pw idx air water c e h Hok. cbn zeta.
    destruct (readSensor_good pin pw idx air water c e h Hok) as [-> _].
    cbn [readings totalReading rawValue]. split; reflexivity. }
  split; [exact loop_keeps_readIndex|].
  split; [|split].
  - intros k e h.
    apply (sketch_preserve (fun g => readIndex g = 0) e).
    + intros h0. apply setup_run.
    + intros g h0 Hg. rewrite loop_keeps_readIndex. exact Hg.
  - intros k h. cbn zeta.
    rewrite steady_600_cycles by (left; reflexivity).
    repeat split; reflexivity.
  - cbn zeta. split; [vm_compute; reflexivity|].
    split; [vm_compute; reflexivity|].
    vm_compute. discriminate.
Qed.

Lemma write_index_never_advances_witness :
  out_of_range (adc (steady 600) moistureSensorA0 (reads power_on)) = false /\
  totalReading
    (value (readSensor moistureSensorA0 sensorPowerPinA0 0 airValueA0 waterValueA0
                       steady_600_channel (steady 600) power_on))
  = int_add (int_sub 600 600) 600.
Proof.
  split; [reflexivity|].
  destruct (proj1 write_index_never_advances
              moistureSensorA0 sensorPowerPinA0 0 airValueA0 waterValueA0
              steady_600_channel (steady 600) power_on eq_refl) as [_ Ht].
  rewrite Ht. reflexivity.
Defined.

(** C2, on the code: the mapping itself sends 600 to 58, and so does the
    single-sensor sketch; the enhanced sketch maps the total divided by
    [numReadings], and with every sample in slot 0 that is 120, so a steady
    600 yields 100 in every valid cycle, however many there have been. *)
Theorem steady_600_percentage :
  to_percentage 600 1023 300 = 58 /\
  (forall g h,
      Single.moisturePercentage
        (value (Single.readSoilMoisture g (steady 600) h)) = 58) /\
  (forall k h,
      percentage (value (cyclesA0 0 (S k) initial_channel (steady 600) h)) = 100) /\
  percentage (chanA0 (value (sketch 5 (steady 600) power_on))) = 100.
Proof.
  split; [reflexivity|].
  split; [intros g h; reflexivity|].
  split; [|vm_compute; reflexivity].
  intros k h. rewrite steady_600_cycles by (left; reflexivity). reflexivity.
Qed.

End RollingFacts.

(** ** Sensor power during sampling *)

Section PowerFacts.
Import Mach Core Hw Filter Enhanced Obs.

(** C8, on the code: in a valid cycle the power pin is high for the
    validation conversion only; [checkSensor] drives it low before
    returning, so the five filter samples are converted with the pin low,
    whatever its level before the cycle. *)
Theorem filter_samples_taken_unpowered :
  (forall e h c idx level,
      out_of_range (adc e moistureSensorA0 (reads h)) = false ->
      power_at_reads sensorPowerPinA0 moistureSensorA0 level
        (events (readSensor moistureSensorA0 sensorPowerPinA0 idx
                            airValueA0 waterValueA0 c e h))
      = [true; false; false; false; false; false]) /\
  (forall e h c idx level,
      out_of_range (adc e moistureSensorA1 (reads h)) = false ->
      power_at_reads sensorPowerPinA1 moistureSensorA1 level
        (events (readSensor moistureSensorA1 sensorPowerPinA1 idx
                            airValueA1 waterValueA1 c e h))
      = [true; false; false; false; false; false]).
Proof.
  split; intros e h c idx level Hok.
  - unfold readSensor, checkSensor, take_samples. run_hw.
    rewrite Hok. run_hw. reflexivity.
  - unfold readSensor, checkSensor, take_samples. run_hw.
    rewrite Hok. run_hw. reflexivity.
Qed.

Lemma filter_samples_taken_unpowered_witness :
  out_of_range (adc (steady 600) moistureSensorA0 (reads power_on)) = false /\
  power_at_reads sensorPowerPinA0 moistureSensorA0 false
    (events (readSensor moistureSensorA0 sensorPowerPinA0 0
                        airValueA0 waterValueA0 initial_channel
                        (steady 600) power_on))
  = [true; false; false; false; false; false].
Proof.
  split; [reflexivity|].
  apply (proj1 filter_samples_taken_unpowered (steady 600) power_on
               initial_channel 0 false eq_refl).
Defined.

End PowerFacts.

(** * Further properties of the sketches *)

(** ** The sort and the median on their own *)

Section SortExtras.
Import Mach Core Hw Filter Enhanced Obs Probe.

Lemma median_in n a :
  (0 < n)%nat -> length a = n -> In (median n a) a.
Proof.
  intros Hn Hlen. unfold median.
  apply (Permutation_in _ (bubble_sort_perm n a Hlen)).
  apply nth_In. rewrite (bubble_sort_length n a Hlen).
  apply Nat.div_lt; lia.
Qed.

Lemma bubble_sort_perm_eq n a a' :
  length a = n -> Permutation a a' -> bubble_sort n a = bubble_sort n a'.
Proof.
  intros Hlen Hp.
  assert (length a' = n) as Hlen' by (rewrite <- (Permutation_length Hp); exact Hlen).
  apply sorted_perm_unique; try (apply bubble_sort_sorted; assumption).
  rewrite (bubble_sort_perm n a Hlen), Hp.
  apply Permutation_sym, bubble_sort_perm, Hlen'.
Qed.

Lemma count_lt_prefix v s : forall k,
  (k < length s)%nat ->
  (forall j, (j <= k)%nat -> nth j s 0 < v) ->
  (S k <= count_lt v s)%nat.
Proof.
  unfold count_lt.
  induction s as [|x s IH]; intros k Hlen Hk; simpl in *; [lia|].
  assert ((x <? v) = true) as -> by (apply Z.ltb_lt; apply (Hk 0%nat); lia).
  simpl. destruct k as [|k]; [lia|].
  apply le_n_S, IH; [lia|]. intros j Hj. apply (Hk (S j)). lia.
Qed.

Lemma count_gt_suffix v s : forall k,
  (forall j, (k <= j < length s)%nat -> v < nth j s 0) ->
  (length s - k <= count_gt v s)%nat.
Proof.
  unfold count_gt.
  induction s as [|x s IH]; intros k Hk; simpl in *; [lia|].
  destruct k as [|k].
  - assert ((v <? x) = true) as -> by (apply Z.ltb_lt; apply (Hk 0%nat); lia).
    simpl. apply le_n_S.
    specialize (IH 0%nat). rewrite Nat.sub_0_r in IH. apply IH.
    intros j Hj. apply (Hk (S j)). lia.
  - specialize (IH k ltac:(intros j Hj; apply (Hk (S j)); lia)).
    destruct (v <? x); simpl; lia.
Qed.

(** X1: for every array length (even ones, 0 and 1 included) the two nested
    loops of [readSensor] leave the array in ascending order with the same
    elements, whatever arrangement of them they started from; sorting an
    already sorted array changes nothing. *)
Theorem bubble_sort_any_length (n : nat) (a : list Z) :
  length a = n ->
  StronglySorted Z.le (bubble_sort n a) /\
  Permutation (bubble_sort n a) a /\
  length (bubble_sort n a) = n /\
  (forall a', Permutation a a' -> bubble_sort n a' = bubble_sort n a) /\
  (StronglySorted Z.le a -> bubble_sort n a = a) /\
  bubble_sort n (bubble_sort n a) = bubble_sort n a.
Proof.
  intros Hlen.
  pose proof (bubble_sort_sorted n a Hlen) as Hs.
  pose proof (bubble_sort_perm n a Hlen) as Hp.
  pose proof (bubble_sort_length n a Hlen) as Hl.
  repeat split; try assumption.
  - intros a' Ha'. symmetry. apply bubble_sort_perm_eq; assumption.
  - intros Ha. apply sorted_perm_unique; assumption.
  - apply sorted_perm_unique; [apply bubble_sort_sorted, Hl | exact Hs |].
    apply bubble_sort_perm, Hl.
Qed.

Lemma bubble_sort_any_length_witness :
  bubble_sort 4 [7; 3; 9; 3] = [3; 3; 7; 9] /\
  bubble_sort 4 [9; 3; 3; 7] = bubble_sort 4 [7; 3; 9; 3].
Proof.
  destruct (bubble_sort_any_length 4 [7; 3; 9; 3] eq_refl)
    as (_ & _ & _ & Hperm & _).
  split; [reflexivity|].
  apply Hperm.
  apply Permutation_sym.
  change [9; 3; 3; 7] with ([9; 3; 3] ++ [7]).
  apply (Permutation_trans (Permutation_app_comm [9; 3; 3] [7])).
  simpl. constructor.
  apply (Permutation_trans (Permutation_app_comm [9] [3; 3])).
  simpl. constructor. apply perm_swap.
Defined.

(** X2: the filter's result does not depend on the order in which the
    samples were taken, and it resists spikes: when at most [n/2] samples lie
    below [lo] and fewer than [n - n/2] lie above [hi], the result is within
    [lo..hi] (for the sketch's five samples: up to two spikes on either
    side). *)
Theorem median_rejects_spikes (n : nat) (a : list Z) (lo hi : Z) :
  (0 < n)%nat ->
  length a = n ->
  (forall a', Permutation a a' -> median n a' = median n a) /\
  ((count_lt lo a <= n / 2)%nat -> lo <= median n a) /\
  ((count_gt hi a < n - n / 2)%nat -> median n a <= hi).
Proof.
  intros Hn Hlen.
  pose proof (bubble_sort_sorted n a Hlen) as Hs.
  pose proof (bubble_sort_perm n a Hlen) as Hp.
  pose proof (bubble_sort_length n a Hlen) as Hl.
  assert (n / 2 < n)%nat as Hhalf by (apply Nat.div_lt; lia).
  split; [|split].
  - intros a' Ha'. unfold median.
    rewrite (bubble_sort_perm_eq n a a' Hlen Ha'). reflexivity.
  - intros Hcount.
    destruct (Z_lt_le_dec (median n a) lo) as [Hlt|Hle]; [|exact Hle].
    exfalso.
    pose proof (count_lt_prefix lo (bubble_sort n a) (n / 2) ltac:(lia)) as Hb.
    unfold count_lt in Hb, Hcount. rewrite (count_perm _ _ _ Hp) in Hb.
    assert (S (n / 2) <= n / 2)%nat; [|lia].
    etransitivity; [apply Hb | exact Hcount].
    intros j Hj.
    pose proof (sorted_nth_le _ Hs j (n / 2)%nat ltac:(lia)) as Hj'.
    unfold median in Hlt. lia.
  - intros Hcount.
    destruct (Z_lt_le_dec hi (median n a)) as [Hlt|Hle]; [|exact Hle].
    exfalso.
    pose proof (count_gt_suffix hi (bubble_sort n a) (n / 2)) as Hb.
    unfold count_gt in Hb, Hcount. rewrite (count_perm _ _ _ Hp) in Hb.
    rewrite Hl in Hb.
    assert (n - n / 2 <= length (List.filter (fun x => (hi <? x)%Z) a))%nat; [|lia].
    apply Hb. intros j Hj.
    pose proof (sorted_nth_le _ Hs (n / 2)%nat j ltac:(lia)) as Hj'.
    unfold median in Hlt. lia.
Qed.

Lemma median_rejects_spikes_witness :
  590 <= median 5 [612; 0; 1023; 601; 600] <= 620.
Proof.
  destruct (median_rejects_spikes 5 [612; 0; 1023; 601; 600] 590 620
              ltac:(lia) eq_refl) as (_ & Hlo & Hhi).
  split; [apply Hlo | apply Hhi]; vm_compute; lia.
Defined.

End SortExtras.

(** ** The sampling loop *)

Section SamplingExtras.
Import Mach Core Hw Filter Enhanced Obs Probe.

Lemma insert_at_length {A} (pre : list A) x v l :
  <[length pre := v]> (pre ++ x :: l) = pre ++ v :: l.
Proof.
  induction pre as [|p pre IH]; [reflexivity|].
  simpl. f_equal. exact IH.
Qed.

Lemma sampling_from pin e k : forall pre h,
  for_each (seq (length pre) k)
    (fun i tempReadings =>
       bind (analogRead pin)
            (fun v => bind (delay 10) (fun _ => ret (<[i := v]> tempReadings))))
    (pre ++ repeat 0 k) e h
  = (pre ++ conversions e pin (reads h) k,
     {| reads := (k + reads h)%nat; ticks := ticks h |},
     sample_events pin (conversions e pin (reads h) k)).
Proof.
  induction k as [|k IH]; intros pre h.
  - destruct h. reflexivity.
  - cbn [seq for_each repeat conversions].
    rewrite run_bind.
    assert (forall (i : nat) (a : list Z),
               bind (analogRead pin)
                    (fun v => bind (delay 10) (fun _ => ret (<[i := v]> a))) e h
               = (<[i := adc e pin (reads h)]> a,
                  {| reads := S (reads h); ticks := ticks h |},
                  [AnalogRead pin (adc e pin (reads h)); Delay 10])) as Hbody
        by reflexivity.
    rewrite Hbody. cbn [value final events fst snd].
    rewrite insert_at_length.
    replace (pre ++ adc e pin (reads h) :: repeat 0 k)
      with ((pre ++ [adc e pin (reads h)]) ++ repeat 0 k)
      by (rewrite <- app_assoc; reflexivity).
    replace (S (length pre)) with (length (pre ++ [adc e pin (reads h)]))
      by (rewrite length_app; simpl; lia).
    rewrite IH. cbn [value final events fst snd reads ticks].
    rewrite <- app_assoc, Nat.add_succ_r. reflexivity.
Qed.

(** X3: for every sample count [n] the sampling loop of [readSensor]
    converts exactly [n] times on the sensor's pin, waits 10 ms after each
    conversion, and returns the [n] codes in the order they were converted:
    every slot of [tempReadings] is written before the sort reads it. *)
Theorem take_samples_fills_every_slot pin n e h :
  take_samples pin n e h
  = (conversions e pin (reads h) n,
     {| reads := (n + reads h)%nat; ticks := ticks h |},
     sample_events pin (conversions e pin (reads h) n)) /\
  length (value (take_samples pin n e h)) = n /\
  total_delay (events (take_samples pin n e h)) = 10 * Z.of_nat n.
Proof.
  assert (take_samples pin n e h
          = (conversions e pin (reads h) n,
             {| reads := (n + reads h)%nat; ticks := ticks h |},
             sample_events pin (conversions e pin (reads h) n))) as Hrun
      by (exact (sampling_from pin e n [] h)).
  split; [exact Hrun|]. rewrite Hrun. cbn [value events fst snd].
  generalize (reads h). clear Hrun.
  induction n as [|n IH]; intros r; [split; reflexivity|].
  destruct (IH (S r)) as [IHl IHd]. split.
  - cbn [conversions length]. rewrite IHl. reflexivity.
  - cbn [conversions sample_events flat_map app total_delay].
    fold (sample_events pin (conversions e pin (S r) n)).
    rewrite IHd. lia.
Qed.

End SamplingExtras.

(** ** What a 10-bit converter implies for the sensor variables *)

Section RangeExtras.
Import Mach Core Hw Filter Enhanced Obs Probe.

Lemma conversions_in_range e pin k : forall r,
  adc_in_range e ->
  List.Forall (fun v => 0 <= v <= 1023) (conversions e pin r k).
Proof.
  induction k as [|k IH]; intros r He; cbn [conversions]; constructor.
  - apply He.
  - apply IH, He.
Qed.

Lemma median_in_range e pin r :
  adc_in_range e ->
  0 <= median numReadings (samples_at e pin r) <= 1023.
Proof.
  intros He.
  pose proof (conversions_in_range e pin numReadings r He) as Hall.
  rewrite List.Forall_forall in Hall. apply Hall.
  apply median_in; [unfold numReadings; lia | reflexivity].
Qed.

Lemma one_spike_in_range : adc_in_range one_spike.
Proof.
  intros pin k. cbn [adc one_spike].
  do 6 (destruct k as [|k]; [cbn; lia|]). cbn.
  destruct k; lia.
Qed.

Lemma readSensor_keeps_ok pin pw air water c e h :
  adc_in_range e -> channel_ok c ->
  channel_ok (value (readSensor pin pw 0 air water c e h)).
Proof.
  intros He (Hr & Ht & Hv & Hl & Hp).
  destruct (out_of_range (adc e pin (reads h))) eqn:E.
  - destruct (readSensor_bad pin pw 0 air water c e h E) as [-> _].
    destruct (lastGoodReading c =? -1) eqn:El; unfold channel_ok;
      cbn [readings totalReading rawValue lastGoodReading percentage].
    + split; [exact Hr|]. split; [exact Ht|]. split; [exact Hv|].
      split; [exact Hl | exact Hp].
    + apply Z.eqb_neq in El.
      split; [exact Hr|]. split; [exact Ht|]. split; [lia|].
      split; [exact Hl | apply to_percentage_range].
  - destruct (readSensor_good pin pw 0 air water c e h E) as [-> _].
    pose proof (median_in_range e pin (S (reads h)) He) as Hm.
    unfold channel_ok;
      cbn [readings totalReading rawValue lastGoodReading percentage].
    rewrite Hr. cbn [Z.to_nat nth]. unfold int_sub. rewrite Z.sub_diag.
    change (int_wrap 0) with 0. unfold int_add. rewrite Z.add_0_l.
    rewrite int_wrap_id by (unfold is_int; lia).
    split; [reflexivity|]. split; [lia|]. split; [lia|].
    split; [right; lia | apply to_percentage_range].
Qed.

Lemma loop_keeps_ok e g h :
  adc_in_range e ->
  readIndex g = 0 /\ channel_ok (chanA0 g) /\ channel_ok (chanA1 g) ->
  readIndex (value (loop g e h)) = 0 /\
  channel_ok (chanA0 (value (loop g e h))) /\
  channel_ok (chanA1 (value (loop g e h))).
Proof.
  intros He (Hi & H0 & H1). rewrite loop_run. cbn zeta.
  destruct (due _ _); [|split; [|split]; assumption].
  cbn [value fst readIndex chanA0 chanA1]. rewrite readSensors_run.
  cbn [value fst readIndex chanA0 chanA1]. rewrite Hi.
  split; [reflexivity|]. split; apply readSensor_keeps_ok; assumption.
Qed.

(** X4: with every converter code within 0..1023, at any point of the
    enhanced sketch's run (after set-up and any number of iterations of
    [loop]) each sensor's running total equals the sum of its readings
    array, of which only slot 0 is in use; the total and [rawValue] are
    within 0..1023, and the cached good reading is -1 or within 0..1023. *)
Theorem run_keeps_sensor_variables_in_range e :
  adc_in_range e ->
  forall k h,
    let g := value (sketch k e h) in
    readIndex g = 0 /\
    (channel_ok (chanA0 g) /\ totalReading (chanA0 g) = sum_list (readings (chanA0 g))) /\
    (channel_ok (chanA1 g) /\ totalReading (chanA1 g) = sum_list (readings (chanA1 g))).
Proof.
  intros He k h. cbn zeta.
  assert (readIndex (value (sketch k e h)) = 0 /\
          channel_ok (chanA0 (value (sketch k e h))) /\
          channel_ok (chanA1 (value (sketch k e h)))) as (Hi & H0 & H1).
  { apply (sketch_preserve
             (fun g => readIndex g = 0 /\ channel_ok (chanA0 g) /\ channel_ok (chanA1 g)) e).
    - intros h0. destruct (setup_run e h0) as (_ & Hidx & Hu0 & Hu1).
      split; [exact Hidx|].
      destruct Hu0 as (Hr0 & Ht0 & Hv0 & Hp0 & Hl0).
      destruct Hu1 as (Hr1 & Ht1 & Hv1 & Hp1 & Hl1).
      unfold channel_ok.
      rewrite Hr0, Ht0, Hv0, Hp0, Hl0, Hr1, Ht1, Hv1, Hp1, Hl1.
      repeat split; try reflexivity; try lia; left; reflexivity.
    - intros g h0. apply loop_keeps_ok, He. }
  split; [exact Hi|].
  split; (split; [assumption|]).
  - destruct H0 as (-> & _). cbn. lia.
  - destruct H1 as (-> & _). cbn. lia.
Qed.

Lemma run_keeps_sensor_variables_in_range_witness :
  adc_in_range one_spike /\
  0 <= rawValue (chanA0 (value (sketch 3 one_spike power_on))) <= 1023.
Proof.
  pose proof one_spike_in_range as He.
  split; [exact He|].
  destruct (run_keeps_sensor_variables_in_range one_spike He 3%nat power_on)
    as (_ & (Hok & _) & _).
  apply Hok.
Defined.

(** X5: with converter codes within 0..1023, a valid cycle of the enhanced
    sketch always sets the percentage to 100: the total holds the latest
    sample only, so the average it maps is at most 1023/5 = 204, which is
    beyond the wet bound 300. *)
Theorem valid_cycle_percentage_is_100 pin pw c e h :
  adc_in_range e ->
  channel_ok c ->
  out_of_range (adc e pin (reads h)) = false ->
  let c1 := value (readSensor pin pw 0 airValueA0 waterValueA0 c e h) in
  totalReading c1 = rawValue c1 /\
  0 <= int_div (totalReading c1) (Z.of_nat numReadings) <= 204 /\
  percentage c1 = 100.
Proof.
  intros He (Hr & Ht & Hv & Hl & Hp) Hok. cbn zeta.
  destruct (readSensor_good pin pw 0 airValueA0 waterValueA0 c e h Hok) as [-> _].
  pose proof (median_in_range e pin (S (reads h)) He) as Hm.
  cbn [readings totalReading rawValue lastGoodReading percentage].
  rewrite Hr. cbn [Z.to_nat nth]. unfold int_sub. rewrite Z.sub_diag.
  change (int_wrap 0) with 0. unfold int_add. rewrite Z.add_0_l.
  rewrite int_wrap_id by (unfold is_int; lia).
  set (raw := median numReadings (samples_at e pin (S (reads h)))) in *.
  assert (0 <= Z.quot raw 5 <= 204) as Hq.
  { rewrite Z.quot_div_nonneg by lia. split.
    - apply Z.div_pos; lia.
    - assert (raw / 5 < 205) by (apply Z.div_lt_upper_bound; lia). lia. }
  assert (int_div raw 5 = Z.quot raw 5) as Hd
      by (unfold int_div; apply int_wrap_id; unfold is_int; lia).
  change (Z.of_nat numReadings) with 5. rewrite Hd.
  split; [reflexivity|]. split; [exact Hq|].
  apply to_percentage_beyond_wet; unfold is_int; lia.
Qed.

Lemma valid_cycle_percentage_is_100_witness :
  percentage
    (value (readSensor moistureSensorA0 sensorPowerPinA0 0 airValueA0 waterValueA0
                       initial_channel one_spike power_on)) = 100.
Proof.
  pose proof one_spike_in_range as He.
  assert (channel_ok initial_channel) as Hc.
  { unfold channel_ok. cbn. repeat split; try lia. }
  apply (valid_cycle_percentage_is_100 moistureSensorA0 sensorPowerPinA0
           initial_channel one_spike power_on He Hc eq_refl).
Defined.

Lemma cycle_keeps_cache e pin pw idx air water c h :
  adc_in_range e ->
  (out_of_range (adc e pin (reads h)) = false ->
   lastGoodReading (value (readSensor pin pw idx air water c e h))
   = median numReadings (samples_at e pin (S (reads h)))) /\
  (out_of_range (adc e pin (reads h)) = true ->
   lastGoodReading (value (readSensor pin pw idx air water c e h))
   = lastGoodReading c) /\
  ((out_of_range (adc e pin (reads h)) = false \/ lastGoodReading c <> -1) ->
   lastGoodReading (value (readSensor pin pw idx air water c e h)) <> -1 /\
   rawValue (value (readSensor pin pw idx air water c e h))
   = lastGoodReading (value (readSensor pin pw idx air water c e h))).
Proof.
  intros He.
  destruct (out_of_range (adc e pin (reads h))) eqn:E.
  - destruct (readSensor_bad pin pw idx air water c e h E) as [-> _].
    split; [discriminate|]. split.
    + intros _. destruct (_ =? _); reflexivity.
    + intros [Hor|Hne]; [discriminate|].
      destruct (lastGoodReading c =? -1) eqn:El;
        [apply Z.eqb_eq in El; contradiction|].
      cbn [rawValue lastGoodReading]. split; [exact Hne | reflexivity].
  - destruct (readSensor_good pin pw idx air water c e h E) as [-> _].
    pose proof (median_in_range e pin (S (reads h)) He) as Hm.
    cbn [rawValue lastGoodReading].
    split; [reflexivity|]. split; [discriminate|].
    intros _. split; [lia | reflexivity].
Qed.

(** X6: with converter codes within 0..1023, a valid cycle caches the
    median of its five samples and an invalid cycle leaves the cache as it
    was; after any cycle that is valid or starts with a cached reading, the
    cache is present and [rawValue] equals it, so the value reported is the
    median of the most recent valid cycle.  Each sensor on its own, whatever
    the other does: once it has a cached reading it has one after any number
    of iterations of [loop], and once [rawValue] equals the cached reading it
    does so after any number of iterations. *)
Theorem cached_reading_persists e :
  adc_in_range e ->
  (forall pin pw idx air water c h,
      let c1 := value (readSensor pin pw idx air water c e h) in
      (out_of_range (adc e pin (reads h)) = false ->
       lastGoodReading c1 = median numReadings (samples_at e pin (S (reads h)))) /\
      (out_of_range (adc e pin (reads h)) = true ->
       lastGoodReading c1 = lastGoodReading c) /\
      ((out_of_range (adc e pin (reads h)) = false \/ lastGoodReading c <> -1) ->
       lastGoodReading c1 <> -1 /\ rawValue c1 = lastGoodReading c1)) /\
  (forall k g h,
      lastGoodReading (chanA0 g) <> -1 ->
      lastGoodReading (chanA0 (value (loops k g e h))) <> -1) /\
  (forall k g h,
      lastGoodReading (chanA1 g) <> -1 ->
      lastGoodReading (chanA1 (value (loops k g e h))) <> -1) /\
  (forall k g h,
      lastGoodReading (chanA0 g) <> -1 /\
      rawValue (chanA0 g) = lastGoodReading (chanA0 g) ->
      lastGoodReading (chanA0 (value (loops k g e h))) <> -1 /\
      rawValue (chanA0 (value (loops k g e h)))
      = lastGoodReading (chanA0 (value (loops k g e h)))) /\
  (forall k g h,
      lastGoodReading (chanA1 g) <> -1 /\
      rawValue (chanA1 g) = lastGoodReading (chanA1 g) ->
      lastGoodReading (chanA1 (value (loops k g e h))) <> -1 /\
      rawValue (chanA1 (value (loops k g e h)))
      = lastGoodReading (chanA1 (value (loops k g e h)))) /\
  (forall k g h,
      lastGoodReading (chanA0 g) <> -1 /\ lastGoodReading (chanA1 g) <> -1 ->
      lastGoodReading (chanA0 (value (loops k g e h))) <> -1 /\
      lastGoodReading (chanA1 (value (loops k g e h))) <> -1).
Proof.
  intros He.
  assert (forall (P0 P1 : channel -> Prop),
             (forall pin pw idx air water c h,
                 P0 c -> P0 (value (readSensor pin pw idx air water c e h))) ->
             (forall pin pw idx air water c h,
                 P1 c -> P1 (value (readSensor pin pw idx air water c e h))) ->
             forall k g h,
               P0 (chanA0 g) /\ P1 (chanA1 g) ->
               P0 (chanA0 (value (loops k g e h))) /\
               P1 (chanA1 (value (loops k g e h)))) as Hrun.
  { intros P0 P1 H0 H1 k g h Hg.
    apply (loops_preserve (fun g => P0 (chanA0 g) /\ P1 (chanA1 g)) e);
      [|exact Hg].
    apply (loop_channels P0 P1); intros idx c h0 Hc; [apply H0 | apply H1];
      exact Hc. }
  assert (forall pin pw idx air water c h,
             lastGoodReading c <> -1 ->
             lastGoodReading (value (readSensor pin pw idx air water c e h)) <> -1)
    as Hkeep.
  { intros pin pw idx air water c h Hc.
    apply (cycle_keeps_cache e pin pw idx air water c h He). right. exact Hc. }
  assert (forall pin pw idx air water c h,
             lastGoodReading c <> -1 /\ rawValue c = lastGoodReading c ->
             lastGoodReading (value (readSensor pin pw idx air water c e h)) <> -1 /\
             rawValue (value (readSensor pin pw idx air water c e h))
             = lastGoodReading (value (readSensor pin pw idx air water c e h)))
    as Hsame.
  { intros pin pw idx air water c h [Hc _].
    apply (cycle_keeps_cache e pin pw idx air water c h He). right. exact Hc. }
  split.
  { intros pin pw idx air water c h. cbn zeta.
    apply cycle_keeps_cache, He. }
  split.
  { intros k g h Hg.
    apply (Hrun (fun c => lastGoodReading c <> -1) (fun _ => True) Hkeep
                ltac:(intros; exact I) k g h).
    split; [exact Hg | exact I]. }
  split.
  { intros k g h Hg.
    apply (Hrun (fun _ => True) (fun c => lastGoodReading c <> -1)
                ltac:(intros; exact I) Hkeep k g h).
    split; [exact I | exact Hg]. }
  split.
  { intros k g h Hg.
    apply (Hrun (fun c => lastGoodReading c <> -1 /\ rawValue c = lastGoodReading c)
                (fun _ => True) Hsame ltac:(intros; exact I) k g h).
    split; [exact Hg | exact I]. }
  split.
  { intros k g h Hg.
    apply (Hrun (fun _ => True)
                (fun c => lastGoodReading c <> -1 /\ rawValue c = lastGoodReading c)
                ltac:(intros; exact I) Hsame k g h).
    split; [exact I | exact Hg]. }
  intros k g h Hg.
  apply (Hrun (fun c => lastGoodReading c <> -1) (fun c => lastGoodReading c <> -1)
              Hkeep Hkeep k g h Hg).
Qed.

Lemma cached_reading_persists_witness :
  let c := value (readSensor moistureSensorA0 sensorPowerPinA0 0
                             airValueA0 waterValueA0 initial_channel
                             one_spike power_on) in
  let g := {| lastSendTime := 0; readIndex := 0;
              chanA0 := c; chanA1 := initial_channel |} in
  lastGoodReading c = 601 /\
  lastGoodReading c <> -1 /\ rawValue c = lastGoodReading c /\
  lastGoodReading (chanA0 (value (loops 3 g one_spike power_on))) <> -1.
Proof.
  pose proof one_spike_in_range as He.
  destruct (cached_reading_persists one_spike He)
    as (Hcycle & HrunA0 & _).
  cbn zeta.
  destruct (Hcycle moistureSensorA0 sensorPowerPinA0 0 airValueA0 waterValueA0
                   initial_channel power_on) as (Hmed & _ & Hcache).
  split; [rewrite (Hmed eq_refl); reflexivity|].
  destruct (Hcache (or_introl eq_refl)) as [Hne Hraw].
  split; [exact Hne|]. split; [exact Hraw|].
  apply HrunA0. exact Hne.
Defined.

End RangeExtras.

(** ** Sensor power and blocking time *)

Section PowerTimeExtras.
Import Mach Core Hw Filter Enhanced Obs Probe.

Lemma final_level_app pin evs : forall level rest,
  final_level pin level (evs ++ rest)
  = final_level pin (final_level pin level evs) rest.
Proof.
  induction evs as [|ev evs IH]; intros level rest; [reflexivity|].
  destruct ev; cbn [app final_level]; apply IH.
Qed.

Lemma total_delay_app evs : forall rest,
  total_delay (evs ++ rest) = total_delay evs + total_delay rest.
Proof.
  induction evs as [|ev evs IH]; intros rest; [reflexivity|].
  destruct ev; cbn [app total_delay]; rewrite IH; lia.
Qed.

Lemma readSensor_levels_A0 idx c e h level :
  final_level sensorPowerPinA0 level
    (events (readSensor moistureSensorA0 sensorPowerPinA0 idx
                        airValueA0 waterValueA0 c e h)) = false /\
  final_level sensorPowerPinA1 level
    (events (readSensor moistureSensorA0 sensorPowerPinA0 idx
                        airValueA0 waterValueA0 c e h)) = level.
Proof.
  unfold readSensor, checkSensor, take_samples. run_hw.
  destruct (out_of_range _); run_hw; [|split; reflexivity].
  destruct (sensorError c), (lastGoodReading c =? -1); run_hw; split; reflexivity.
Qed.

Lemma readSensor_levels_A1 idx c e h level :
  final_level sensorPowerPinA1 level
    (events (readSensor moistureSensorA1 sensorPowerPinA1 idx
                        airValueA1 waterValueA1 c e h)) = false /\
  final_level sensorPowerPinA0 level
    (events (readSensor moistureSensorA1 sensorPowerPinA1 idx
                        airValueA1 waterValueA1 c e h)) = level.
Proof.
  unfold readSensor, checkSensor, take_samples. run_hw.
  destruct (out_of_range _); run_hw; [|split; reflexivity].
  destruct (sensorError c), (lastGoodReading c =? -1); run_hw; split; reflexivity.
Qed.

Lemma loop_levels g e h :
  final_level sensorPowerPinA0 false (events (loop g e h)) = false /\
  final_level sensorPowerPinA1 false (events (loop g e h)) = false.
Proof.
  rewrite loop_run. cbn zeta. destruct (due _ _); [|split; reflexivity].
  cbn [events snd]. rewrite readSensors_run. cbn [events snd].
  rewrite !final_level_app.
  destruct (readSensor_levels_A0 (readIndex g) (chanA0 g) e
              {| reads := reads h; ticks := S (ticks h) |} false) as [-> ->].
  match goal with
  | |- context [readSensor moistureSensorA1 _ _ _ _ _ _ ?h1] =>
      destruct (readSensor_levels_A1 (readIndex g) (chanA1 g) e h1 false) as [-> ->]
  end.
  split; reflexivity.
Qed.

Lemma loops_levels e k : forall g h,
  final_level sensorPowerPinA0 false (events (loops k g e h)) = false /\
  final_level sensorPowerPinA1 false (events (loops k g e h)) = false.
Proof.
  induction k as [|k IH]; intros g h; [split; reflexivity|].
  cbn [loops]. rewrite events_bind, !final_level_app.
  destruct (loop_levels g e h) as [-> ->]. apply IH.
Qed.

(** X7: [checkSensor] takes its validation reading with the sensor's power
    pin high, whatever the pin's level before the call.  Whatever the levels
    at reset, both power pins are low when [setup] returns and after every
    iteration of [loop]; a cycle of one sensor leaves the other sensor's pin
    as it was. *)
Theorem sensors_unpowered_between_cycles :
  (forall flag e h level,
      power_at_reads sensorPowerPinA0 moistureSensorA0 level
                     (events (checkSensor moistureSensorA0 flag e h)) = [true] /\
      power_at_reads sensorPowerPinA1 moistureSensorA1 level
                     (events (checkSensor moistureSensorA1 flag e h)) = [true]) /\
  (forall idx c e h level,
      final_level sensorPowerPinA1 level
        (events (readSensor moistureSensorA0 sensorPowerPinA0 idx
                            airValueA0 waterValueA0 c e h)) = level /\
      final_level sensorPowerPinA0 level
        (events (readSensor moistureSensorA1 sensorPowerPinA1 idx
                            airValueA1 waterValueA1 c e h)) = level) /\
  (forall k e h level0 level1,
      final_level sensorPowerPinA0 level0 (events (sketch k e h)) = false /\
      final_level sensorPowerPinA1 level1 (events (sketch k e h)) = false).
Proof.
  split; [|split].
  - intros flag e h level. unfold checkSensor. run_hw.
    destruct (out_of_range _), (out_of_range _), flag; run_hw; split; reflexivity.
  - intros idx c e h level. split.
    + apply readSensor_levels_A0.
    + apply readSensor_levels_A1.
  - intros k e h level0 level1. unfold sketch.
    rewrite events_bind, !final_level_app.
    assert (final_level sensorPowerPinA0 level0 (events (setup initial e h)) = false /\
            final_level sensorPowerPinA1 level1 (events (setup initial e h)) = false)
      as [-> ->].
    { unfold setup, checkSensor. run_hw.
      destruct (out_of_range _), (out_of_range _); run_hw; split; reflexivity. }
    apply loops_levels.
Qed.

Lemma readSensor_delay_A0 idx c e h :
  total_delay (events (readSensor moistureSensorA0 sensorPowerPinA0 idx
                                  airValueA0 waterValueA0 c e h))
  = if out_of_range (adc e moistureSensorA0 (reads h)) then 200 else 250.
Proof.
  unfold readSensor, checkSensor, take_samples. run_hw.
  destruct (out_of_range _); run_hw; [|reflexivity].
  destruct (sensorError c), (lastGoodReading c =? -1); run_hw; reflexivity.
Qed.

Lemma readSensor_delay_A1 idx c e h :
  total_delay (events (readSensor moistureSensorA1 sensorPowerPinA1 idx
                                  airValueA1 waterValueA1 c e h))
  = if out_of_range (adc e moistureSensorA1 (reads h)) then 200 else 250.
Proof.
  unfold readSensor, checkSensor, take_samples. run_hw.
  destruct (out_of_range _); run_hw; [|reflexivity].
  destruct (sensorError c), (lastGoodReading c =? -1); run_hw; reflexivity.
Qed.

(** X8: a cycle of one sensor blocks in [delay] for 250 ms when its
    validation reading is valid (two power-up waits and five sample waits)
    and for 200 ms when it is not, converting six times or once.  An
    iteration of [loop] that passes its guard therefore blocks for 400 to
    500 ms and converts 2 to 12 times; one that does not pass neither waits
    nor converts. *)
Theorem cycle_blocking_time g e h :
  let r := loop g e h in
  let bad0 := out_of_range (adc e moistureSensorA0 (reads h)) in
  let after0 := (reads h + if bad0 then 1 else 6)%nat in
  let bad1 := out_of_range (adc e moistureSensorA1 after0) in
  if fires g e h then
    total_delay (events r)
    = (if bad0 then 200 else 250) + (if bad1 then 200 else 250) /\
    reads (final r) = (after0 + if bad1 then 1 else 6)%nat /\
    400 <= total_delay (events r) <= 500 /\
    (reads h + 2 <= reads (final r) <= reads h + 12)%nat
  else total_delay (events r) = 0 /\ reads (final r) = reads h.
Proof.
  cbn zeta. unfold fires. rewrite loop_run. cbn zeta.
  destruct (due _ _); [|split; reflexivity].
  cbn [events final fst snd reads]. rewrite readSensors_run.
  cbn [events final fst snd].
  rewrite !total_delay_app, readSensor_delay_A0, readSensor_delay_A1.
  cbn [reads total_delay data_line]. rewrite Z.add_0_r.
  destruct (out_of_range (adc e moistureSensorA0 (reads h))) eqn:E0.
  - destruct (readSensor_bad moistureSensorA0 sensorPowerPinA0 (readIndex g)
                airValueA0 waterValueA0 (chanA0 g) e
                {| reads := reads h; ticks := S (ticks h) |} E0) as [_ Hf0].
    rewrite Hf0. cbn [reads ticks]. rewrite Nat.add_1_r.
    destruct (out_of_range (adc e moistureSensorA1 (S (reads h)))) eqn:E1.
    + destruct (readSensor_bad moistureSensorA1 sensorPowerPinA1 (readIndex g)
                  airValueA1 waterValueA1 (chanA1 g) e
                  {| reads := S (reads h); ticks := S (ticks h) |} E1) as [_ ->].
      cbn [reads]. repeat split; lia.
    + destruct (readSensor_good moistureSensorA1 sensorPowerPinA1 (readIndex g)
                  airValueA1 waterValueA1 (chanA1 g) e
                  {| reads := S (reads h); ticks := S (ticks h) |} E1) as [_ ->].
      cbn [reads]. repeat split; lia.
  - destruct (readSensor_good moistureSensorA0 sensorPowerPinA0 (readIndex g)
                airValueA0 waterValueA0 (chanA0 g) e
                {| reads := reads h; ticks := S (ticks h) |} E0) as [_ Hf0].
    rewrite Hf0. cbn [reads ticks].
    replace (reads h + 6)%nat with (6 + reads h)%nat by lia.
    destruct (out_of_range (adc e moistureSensorA1 (6 + reads h))) eqn:E1.
    + destruct (readSensor_bad moistureSensorA1 sensorPowerPinA1 (readIndex g)
                  airValueA1 waterValueA1 (chanA1 g) e
                  {| reads := (6 + reads h)%nat; ticks := S (ticks h) |} E1) as [_ ->].
      cbn [reads]. repeat split; lia.
    + destruct (readSensor_good moistureSensorA1 sensorPowerPinA1 (readIndex g)
                  airValueA1 waterValueA1 (chanA1 g) e
                  {| reads := (6 + reads h)%nat; ticks := S (ticks h) |} E1) as [_ ->].
      cbn [reads]. repeat split; lia.
Qed.

End PowerTimeExtras.

(** ** Set-up and the serial output of a whole run *)

Section OutputExtras.
Import Mach Core Hw Filter Enhanced Obs Probe.

Lemma lines_from_app evs : forall cur rest,
  lines_from cur (evs ++ rest)
  = lines_from cur evs ++ lines_from (pending cur evs) rest.
Proof.
  induction evs as [|ev evs IH]; intros cur rest; [reflexivity|].
  destruct ev; cbn [app lines_from pending]; rewrite ?IH; reflexivity.
Qed.

Lemma pending_app evs : forall cur rest,
  pending cur (evs ++ rest) = pending (pending cur evs) rest.
Proof.
  induction evs as [|ev evs IH]; intros cur rest; [reflexivity|].
  destruct ev; cbn [app pending]; apply IH.
Qed.

Lemma setup_lines e h :
  serial_lines (events (setup initial e h))
  = banner
    ++ (if out_of_range (adc e moistureSensorA0 (reads h))
        then [error_line moistureSensorA0] else [])
    ++ (if out_of_range (adc e moistureSensorA1 (S (reads h)))
        then [error_line moistureSensorA1] else []) /\
  pending [] (events (setup initial e h)) = [].
Proof.
  unfold setup, checkSensor, serial_lines. run_hw.
  destruct (out_of_range _), (out_of_range _); run_hw; split; reflexivity.
Qed.

Lemma setup_flags e h :
  sensorError (chanA0 (value (setup initial e h)))
  = out_of_range (adc e moistureSensorA0 (reads h)) /\
  sensorError (chanA1 (value (setup initial e h)))
  = out_of_range (adc e moistureSensorA1 (S (reads h))) /\
  final (setup initial e h) = {| reads := S (S (reads h)); ticks := ticks h |}.
Proof.
  unfold setup, checkSensor. run_hw.
  destruct (out_of_range _), (out_of_range _); run_hw; repeat split.
Qed.

(** X9: [setup] prints the two banner lines first, then validates sensor
    A0 and sensor A1 once each (two conversions) and prints an out-of-range
    line for each one found at a rail; it records the outcome in the
    sensor's error flag and leaves every other sensor variable at its
    initial value.  A fault reported by [setup] is therefore not reported
    again by a following cycle of that sensor. *)
Theorem setup_reports_startup_faults e h :
  let s := setup initial e h in
  let bad0 := out_of_range (adc e moistureSensorA0 (reads h)) in
  let bad1 := out_of_range (adc e moistureSensorA1 (S (reads h))) in
  serial_lines (events s)
  = banner ++ (if bad0 then [error_line moistureSensorA0] else [])
           ++ (if bad1 then [error_line moistureSensorA1] else []) /\
  sensorError (chanA0 (value s)) = bad0 /\
  sensorError (chanA1 (value s)) = bad1 /\
  untouched (chanA0 (value s)) /\ untouched (chanA1 (value s)) /\
  lastSendTime (value s) = 0 /\
  final s = {| reads := S (S (reads h)); ticks := ticks h |} /\
  (forall idx h1,
      bad0 = true ->
      error_lines (events (readSensor moistureSensorA0 sensorPowerPinA0 idx
                                      airValueA0 waterValueA0
                                      (chanA0 (value s)) e h1)) = []) /\
  (forall idx h1,
      bad1 = true ->
      error_lines (events (readSensor moistureSensorA1 sensorPowerPinA1 idx
                                      airValueA1 waterValueA1
                                      (chanA1 (value s)) e h1)) = []).
Proof.
  cbn zeta.
  destruct (setup_lines e h) as [Hlines _].
  destruct (setup_flags e h) as (Hf0 & Hf1 & Hfin).
  destruct (setup_run e h) as (Hlast & _ & Hu0 & Hu1).
  split; [exact Hlines|]. split; [exact Hf0|]. split; [exact Hf1|].
  split; [exact Hu0|]. split; [exact Hu1|]. split; [exact Hlast|].
  split; [exact Hfin|].
  split; intros idx h1 Hbad.
  - rewrite <- (app_nil_r (events _)). unfold error_lines.
    rewrite readSensor_lines, Hf0, Hbad, !List.filter_app.
    destruct (out_of_range (adc e moistureSensorA0 (reads h1))), (_ =? _);
      reflexivity.
  - rewrite <- (app_nil_r (events _)). unfold error_lines.
    rewrite readSensor_lines, Hf1, Hbad, !List.filter_app.
    destruct (out_of_range (adc e moistureSensorA1 (reads h1))), (_ =? _);
      reflexivity.
Qed.

Lemma setup_reports_startup_faults_witness :
  serial_lines (events (setup initial (steady 1023) power_on))
  = banner ++ [error_line moistureSensorA0; error_line moistureSensorA1] /\
  error_lines
    (events (readSensor moistureSensorA0 sensorPowerPinA0 0 airValueA0 waterValueA0
                        (chanA0 (value (setup initial (steady 1023) power_on)))
                        (steady 1023) {| reads := 2; ticks := 1 |})) = [].
Proof.
  destruct (setup_reports_startup_faults (steady 1023) power_on)
    as (Hlines & _ & _ & _ & _ & _ & _ & Hquiet & _).
  split; [exact Hlines|].
  apply Hquiet. reflexivity.
Defined.

Lemma setup_no_data_lines e h rest :
  data_lines (events (setup initial e h) ++ rest) = data_lines rest.
Proof.
  unfold data_lines, serial_lines.
  rewrite lines_from_app.
  destruct (setup_lines e h) as [Hl Hp]. unfold serial_lines in Hl.
  rewrite Hl, Hp, !List.filter_app.
  destruct (out_of_range _), (out_of_range _); reflexivity.
Qed.

Lemma loop_data_lines g e h rest :
  data_lines (events (loop g e h) ++ rest)
  = (if fires g e h
     then [[TULong (ulong_wrap (clock e (S (ticks h)))); TStr ",";
            TInt (rawValue (chanA0 (value (loop g e h)))); TStr ",";
            TInt (rawValue (chanA1 (value (loop g e h))))]]
     else [])
    ++ data_lines rest.
Proof.
  destruct (fires g e h) eqn:Hf.
  - destruct (loop_fired g e h Hf) as (H0 & H1 & Hev).
    rewrite Hev, H0, H1, <- app_assoc, readSensors_lines. reflexivity.
  - rewrite (loop_idle g e h Hf). reflexivity.
Qed.

Lemma loops_data_lines e k : forall g h rest,
  length (data_lines (events (loops k g e h) ++ rest))
  = (count_true (fire_log k g e h) + length (data_lines rest))%nat.
Proof.
  induction k as [|k IH]; intros g h rest; [reflexivity|].
  cbn [loops fire_log]. rewrite events_bind, <- app_assoc, loop_data_lines.
  rewrite length_app, IH. unfold count_true. cbn [List.filter].
  destruct (fires g e h); cbn [length]; lia.
Qed.

(** X10: over a whole run of the enhanced sketch (set-up, then any number
    of iterations of [loop]) the report lines on the serial port are as many
    as the iterations that passed the guard: neither the banner nor any
    diagnostic reads as a report line, and no iteration sends two. *)
Theorem run_sends_one_line_per_fired_iteration k e h :
  let s := setup initial e h in
  length (data_lines (events (sketch k e h)))
  = count_true (fire_log k (value s) e (final s)) /\
  data_lines (events s) = [].
Proof.
  cbn zeta. split.
  - unfold sketch. rewrite events_bind, setup_no_data_lines.
    rewrite <- (app_nil_r (events (loops _ _ _ _))), loops_data_lines.
    cbn. lia.
  - rewrite <- (app_nil_r (events _)), setup_no_data_lines. reflexivity.
Qed.

End OutputExtras.

(** ** The percentage mapping with the sketches' calibration *)

Section MappingExtras.
Import Mach Core Hw Filter Enhanced Obs Probe.

Lemma to_percentage_in_calibration v :
  300 <= v <= 1023 ->
  to_percentage v 1023 300 = (1023 - v) * 100 / 723.
Proof.
  intros Hv. rewrite to_percentage_sketch by (unfold is_int; lia).
  replace ((v - 1023) * 100) with (- ((1023 - v) * 100)) by lia.
  change (-723) with (- (723)). rewrite Zquot_opp_opp.
  rewrite Z.quot_div_nonneg by lia.
  assert (0 <= (1023 - v) * 100 / 723) as Hlo by (apply Z.div_pos; lia).
  assert ((1023 - v) * 100 / 723 <= 100) as Hhi
      by (apply Z.div_le_upper_bound; lia).
  unfold constrain.
  destruct (_ <? 0) eqn:E1; [lia|].
  destruct (_ >? 100) eqn:E2; [lia | reflexivity].
Qed.

Lemma to_percentage_antitone v1 v2 :
  is_int v1 -> is_int v2 -> v1 <= v2 ->
  to_percentage v2 1023 300 <= to_percentage v1 1023 300.
Proof.
  intros H1 H2 Hle.
  pose proof (to_percentage_range v1 1023 300) as R1.
  pose proof (to_percentage_range v2 1023 300) as R2.
  destruct (Z_le_gt_dec 1023 v2) as [Hd2|Hd2].
  { rewrite (to_percentage_beyond_dry v2 H2 Hd2). lia. }
  destruct (Z_le_gt_dec v1 300) as [Hw1|Hw1].
  { rewrite (to_percentage_beyond_wet v1 H1 Hw1). lia. }
  rewrite !to_percentage_in_calibration by lia.
  apply Z.div_le_mono; lia.
Qed.

(** X11: with the calibration of the sketches (dry 1023, wet 300) the
    percentage of a reading within the calibration range is
    [(1023 - v) * 100 / 723] rounded down; over all [int] readings a higher
    reading never gives a higher percentage, and two neighbouring codes give
    percentages at most one apart. *)
Theorem percentage_follows_reading :
  (forall v, 300 <= v <= 1023 ->
             to_percentage v airValueA0 waterValueA0 = (1023 - v) * 100 / 723) /\
  (forall v1 v2, is_int v1 -> is_int v2 -> v1 <= v2 ->
                 to_percentage v2 airValueA0 waterValueA0
                 <= to_percentage v1 airValueA0 waterValueA0) /\
  (forall v, is_int v -> is_int (v + 1) ->
             to_percentage v airValueA0 waterValueA0
             - to_percentage (v + 1) airValueA0 waterValueA0 <= 1).
Proof.
  change airValueA0 with 1023. change waterValueA0 with 300.
  split; [exact to_percentage_in_calibration|].
  split; [exact to_percentage_antitone|].
  intros v H1 H2.
  destruct (Z_le_gt_dec 1023 v) as [Hd|Hd].
  { rewrite (to_percentage_beyond_dry v H1 Hd).
    rewrite (to_percentage_beyond_dry (v + 1) H2) by lia. lia. }
  destruct (Z_le_gt_dec (v + 1) 300) as [Hw|Hw].
  { rewrite (to_percentage_beyond_wet (v + 1) H2 Hw).
    rewrite (to_percentage_beyond_wet v H1) by lia. lia. }
  rewrite !to_percentage_in_calibration by lia.
  assert ((1023 - v) * 100 <= (1023 - (v + 1)) * 100 + 1 * 723) as Hstep by lia.
  apply (Z.div_le_mono _ _ 723 ltac:(lia)) in Hstep.
  rewrite Z.div_add in Hstep by lia. lia.
Qed.

Lemma percentage_follows_reading_witness :
  to_percentage 600 airValueA0 waterValueA0 = (1023 - 600) * 100 / 723 /\
  to_percentage 700 airValueA0 waterValueA0 <= to_percentage 600 airValueA0 waterValueA0 /\
  to_percentage 600 airValueA0 waterValueA0 - to_percentage 601 airValueA0 waterValueA0 <= 1.
Proof.
  destruct percentage_follows_reading as (Hform & Hmono & Hstep).
  split; [apply Hform; lia|].
  split; [apply Hmono | apply Hstep]; unfold is_int; lia.
Defined.

End MappingExtras.

(** ** The single-sensor sketch and the minimal sketch *)

Section OtherSketches.
Import Mach Core Hw Filter Obs Probe.

Lemma single_loop_run g e h :
  Single.loop g e h =
  (let now := ulong_wrap (clock e (ticks h)) in
   let raw := adc e Single.moistureSensorPin (reads h) in
   let pct := to_percentage raw Single.airValue Single.waterValue in
   if single_fires g e h then
     ({| Single.previousMillis := now;
         Single.rawMoistureValue := raw;
         Single.moisturePercentage := pct |},
      {| reads := S (reads h); ticks := S (ticks h) |},
      [AnalogRead Single.moistureSensorPin raw;
       Print (TStr "DATA,"); Print (TInt raw); Print (TStr ",");
       Println (TInt pct)])
   else (g, {| reads := reads h; ticks := S (ticks h) |}, [])).
Proof.
  unfold Single.loop, Single.readSoilMoisture, Single.sendData, single_fires.
  unfold millis, analogRead, print, println, emit, bind, ret.
  cbn -[to_percentage ulong_wrap ulong_sub Z.leb].
  destruct (_ <=? _); reflexivity.
Qed.

Lemma guard_on_elapsed_time interval last now t0 d :
  last = ulong_wrap t0 -> now = ulong_wrap (t0 + d) -> 0 <= d < 4294967296 ->
  (interval <=? ulong_sub now last) = (interval <=? d).
Proof.
  intros -> -> Hd. rewrite ulong_sub_wrapped.
  replace (t0 + d - t0) with d by lia.
  unfold ulong_wrap. rewrite Z.mod_small by lia. reflexivity.
Qed.

(** X12: an iteration of the single-sensor sketch's [loop] that passes its
    guard converts once, stores the compared clock value itself in
    [previousMillis], and prints exactly one line [DATA,raw,percentage]
    whose raw field is the code just converted and whose percentage is its
    clamped mapping; otherwise it changes and prints nothing.  Since the
    compared value is the one stored, the next iteration passes exactly when
    [readInterval] ms have elapsed since this check, across clock wrap-around
    too: the period does not drift with the work done in between. *)
Theorem single_sketch_period_does_not_drift g e h :
  let r := Single.loop g e h in
  let now := ulong_wrap (clock e (ticks h)) in
  let raw := adc e Single.moistureSensorPin (reads h) in
  (single_fires g e h = false -> value r = g /\ events r = []) /\
  (single_fires g e h = true ->
   Single.previousMillis (value r) = now /\
   Single.rawMoistureValue (value r) = raw /\
   0 <= Single.moisturePercentage (value r) <= 100 /\
   serial_lines (events r)
   = [[TStr "DATA,"; TInt raw; TStr ",";
       TInt (to_percentage raw Single.airValue Single.waterValue)]] /\
   reads (final r) = S (reads h) /\
   (forall d, clock e (S (ticks h)) = clock e (ticks h) + d ->
              0 <= d < 4294967296 ->
              single_fires (value r) e (final r) = (Single.readInterval <=? d))).
Proof.
  cbn zeta. rewrite single_loop_run. cbn zeta. split; intros Hf; rewrite Hf.
  - split; reflexivity.
  - cbn [value final events fst snd Single.previousMillis
         Single.rawMoistureValue Single.moisturePercentage reads ticks].
    split; [reflexivity|]. split; [reflexivity|].
    split; [apply to_percentage_range|].
    split; [reflexivity|]. split; [reflexivity|].
    intros d Hclock Hd. unfold single_fires.
    cbn [Single.previousMillis ticks].
    apply (guard_on_elapsed_time _ _ _ (clock e (ticks h)) d);
      [reflexivity | rewrite Hclock; reflexivity | exact Hd].
Qed.

Lemma single_sketch_period_does_not_drift_witness :
  let r := Single.loop Single.initial (steady 600) power_on in
  single_fires Single.initial (steady 600) power_on = true /\
  Single.previousMillis (value r) = 5000 /\
  Single.moisturePercentage (value r) = 58 /\
  single_fires (value r) (steady 600) (final r) = true.
Proof.
  cbn zeta.
  destruct (single_sketch_period_does_not_drift Single.initial (steady 600) power_on)
    as [_ Hfired].
  destruct (Hfired eq_refl) as (Hprev & _ & _ & _ & _ & Hnext).
  split; [reflexivity|]. split; [exact Hprev|]. split; [reflexivity|].
  rewrite (Hnext 5000); [reflexivity | reflexivity | lia].
Defined.

Lemma minimal_loop_run g e h :
  Minimal.loop g e h =
  (let v0 := adc e Minimal.moistureSensorA0 (reads h) in
   let v1 := adc e Minimal.moistureSensorA1 (S (reads h)) in
   if minimal_fires g e h then
     ({| Minimal.lastSendTime := ulong_wrap (clock e (S (S (ticks h)))) |},
      {| reads := S (S (reads h)); ticks := S (S (S (ticks h))) |},
      [AnalogRead Minimal.moistureSensorA0 v0;
       AnalogRead Minimal.moistureSensorA1 v1;
       Print (TULong (ulong_wrap (clock e (S (ticks h)))));
       Print (TStr ","); Print (TInt v0); Print (TStr ",");
       Println (TInt v1)])
   else (g, {| reads := reads h; ticks := S (ticks h) |}, [])).
Proof.
  unfold Minimal.loop, minimal_fires.
  unfold millis, analogRead, print, println, emit, bind, ret.
  cbn -[ulong_wrap ulong_sub Z.leb].
  destruct (_ <=? _); reflexivity.
Qed.

(** X13: an iteration of the minimal sketch's [loop] that passes its guard
    converts sensor A0 and then sensor A1 once each and sends one report line
    carrying the clock value read after both conversions and the two codes as
    converted, rail values included; it then stores a further clock read in
    [lastSendTime].  The guard compares the 32-bit unsigned difference, so
    with the last send at true time [t0] and [d < 2^32] ms elapsed it passes
    exactly when [d >= 5000]; an iteration that does not pass changes and
    sends nothing. *)
Theorem minimal_sketch_reports_raw_conversions g e h :
  let r := Minimal.loop g e h in
  let v0 := adc e Minimal.moistureSensorA0 (reads h) in
  let v1 := adc e Minimal.moistureSensorA1 (S (reads h)) in
  (minimal_fires g e h = false -> value r = g /\ events r = []) /\
  (minimal_fires g e h = true ->
   data_lines (events r)
   = [[TULong (ulong_wrap (clock e (S (ticks h)))); TStr ","; TInt v0;
       TStr ","; TInt v1]] /\
   serial_lines (events r) = data_lines (events r) /\
   reads (final r) = S (S (reads h)) /\
   Minimal.lastSendTime (value r) = ulong_wrap (clock e (S (S (ticks h))))) /\
  (forall t0 d,
      Minimal.lastSendTime g = ulong_wrap t0 ->
      clock e (ticks h) = t0 + d ->
      0 <= d < 4294967296 ->
      minimal_fires g e h = (Minimal.sendInterval <=? d)).
Proof.
  cbn zeta. rewrite minimal_loop_run. cbn zeta. split; [|split].
  - intros Hf. rewrite Hf. split; reflexivity.
  - intros Hf. rewrite Hf. repeat split.
  - intros t0 d Hlast Hclock Hd. unfold minimal_fires.
    apply (guard_on_elapsed_time _ _ _ t0 d);
      [exact Hlast | rewrite Hclock; reflexivity | exact Hd].
Qed.

Lemma minimal_sketch_reports_raw_conversions_witness :
  minimal_fires Minimal.initial (steady 1023) power_on = true /\
  data_lines (events (Minimal.loop Minimal.initial (steady 1023) power_on))
  = [[TULong 10000; TStr ","; TInt 1023; TStr ","; TInt 1023]] /\
  minimal_fires Minimal.initial (steady 1023) power_on
  = (Minimal.sendInterval <=? 5000).
Proof.
  destruct (minimal_sketch_reports_raw_conversions
              Minimal.initial (steady 1023) power_on) as (_ & Hfired & Hguard).
  split; [reflexivity|].
  destruct (Hfired eq_refl) as (Hline & _).
  split; [exact Hline|].
  apply (Hguard 0 5000); [reflexivity | reflexivity | lia].
Defined.

End OtherSketches.
